(** * backtranslator: a shallow embedding of [main.py]

    The driver script reads a tab separated dataset, optionally cleans the
    texts, sends them through an external back-translation model and writes
    the paraphrased dataset back.  This file embeds the script in Rocq:

    - Python [str] values are lists of Unicode code points ([N]);
    - Python [int] values are [Z], slices and indexing follow Python
      (negative indices count from the end, slices clamp, indexing raises);
    - exceptions are an error monad, the [while] loop of [clean_for_imdb]
      runs on fuel and reports exhaustion as its own outcome;
    - the file system is a finite map from paths to parsed tables, and the
      driver threads it, with a trace of its observable actions, through a
      state-and-error monad; opening the output file, writing a row to it
      and closing it are requests that the host may answer with an
      exception;
    - the external translation model and the order in which worker
      processes deliver their results are parameters. *)

From Stdlib Require Import ZArith String Ascii.
From stdpp Require Import base list gmap.

Local Open Scope Z_scope.

(** ** Python values *)

Abbreviation str := (list N).

(** A source literal, as a list of code points. *)
Definition lit (s : string) : str :=
  map N_of_ascii (list_ascii_of_string s).

Inductive exn :=
| IndexError
| ValueError
| AssertionError
| FileNotFoundError
| OSError
| UnicodeEncodeError.

(** Outcome of a computation: a value, a raised exception, or fuel ran out. *)
Inductive res (A : Type) :=
| Ok (a : A)
| Raise (e : exn)
| OutOfFuel.
Arguments Ok {A} a.
Arguments Raise {A} e.
Arguments OutOfFuel {A}.

Definition res_bind {A B} (m : res A) (k : A -> res B) : res B :=
  match m with
  | Ok a => k a
  | Raise e => Raise e
  | OutOfFuel => OutOfFuel
  end.

Global Instance res_mret : MRet res := @Ok.
Global Instance res_mbind : MBind res := fun A B k m => res_bind m k.

(** [[f(x) for x in xs]] where [f] may raise. *)
Fixpoint res_map {A B} (f : A -> res B) (xs : list A) : res (list B) :=
  match xs with
  | [] => Ok []
  | x :: xs' => y ← f x; ys ← res_map f xs'; Ok (y :: ys)
  end.

Module Py.

(** [len(l)] *)
Definition len {A} (l : list A) : Z := Z.of_nat (length l).

(** How a slice bound [i] is read against a sequence of length [n]. *)
Definition slice_bound (n i : Z) : Z :=
  if i <? 0 then Z.max 0 (i + n) else Z.min i n.

(** [l[lo:hi]]; [None] is an omitted bound. *)
Definition slice {A} (l : list A) (lo hi : option Z) : list A :=
  let n := len l in
  let a := match lo with Some i => slice_bound n i | None => 0 end in
  let b := match hi with Some j => slice_bound n j | None => n end in
  take (Z.to_nat (b - a)) (drop (Z.to_nat a) l).

(** [l[i]] *)
Definition getitem {A} (l : list A) (i : Z) : res A :=
  let j := if i <? 0 then i + len l else i in
  if j <? 0 then Raise IndexError
  else match l !! Z.to_nat j with
       | Some x => Ok x
       | None => Raise IndexError
       end.

(** [s.startswith(p)] *)
Fixpoint startswith (p s : str) : bool :=
  match p, s with
  | [], _ => true
  | _ :: _, [] => false
  | a :: p', b :: s' => N.eqb a b && startswith p' s'
  end.

(** [sub in s] *)
Fixpoint contains (sub s : str) : bool :=
  startswith sub s ||
  match s with
  | [] => false
  | _ :: s' => contains sub s'
  end.

(** Lowest index of an occurrence of [sub] in [s], counted from [i];
    [-1] when there is none. *)
Fixpoint find_from (sub s : str) (i : Z) : Z :=
  if startswith sub s then i
  else match s with
       | [] => -1
       | _ :: s' => find_from sub s' (i + 1)
       end.

(** [s.find(sub, start)] *)
Definition find (sub s : str) (start : Z) : Z :=
  let k := slice_bound (len s) start in
  find_from sub (drop (Z.to_nat k) s) k.

(** [s.replace(old, new)] for a non-empty [old]: occurrences are taken left
    to right and do not overlap.  [skip] counts the characters of a matched
    occurrence that are still to be dropped. *)
Fixpoint replace_go (old new : str) (skip : nat) (s : str) : str :=
  match s with
  | [] => []
  | c :: s' =>
      match skip with
      | S k => replace_go old new k s'
      | O =>
          if startswith old s
          then new ++ replace_go old new (Nat.pred (length old)) s'
          else c :: replace_go old new 0 s'
      end
  end.

Definition replace (old new s : str) : str := replace_go old new 0 s.

(** [a // b] (the driver only divides by a length greater than 1) and
    [sum(len(s) for s in ls)] *)
Definition floordiv (a b : Z) : Z := a / b.

Definition sum_len {A} (ls : list (list A)) : Z :=
  foldr (fun s acc => len s + acc) 0 ls.

(** [zip] applied to the unpacked [rows]: the columns of [rows], as many as
    the shortest row has. *)
Fixpoint zip_star {A} (rows : list (list A)) : list (list A) :=
  match rows with
  | [] => []
  | r :: rs =>
      match rs with
      | [] => map (fun x => [x]) r
      | _ :: _ => zip_with cons r (zip_star rs)
      end
  end.

(** [os.path.basename] and the two-argument [os.path.join] on POSIX. *)
Definition SLASH : N := 47%N.

Fixpoint basename (p : str) : str :=
  match p with
  | [] => []
  | c :: p' =>
      if existsb (N.eqb SLASH) p' then basename p'
      else if N.eqb c SLASH then p' else p
  end.

Definition endswith_slash (a : str) : bool :=
  match last a with
  | Some c => N.eqb c SLASH
  | None => false
  end.

Definition path_join (a b : str) : str :=
  if startswith [SLASH] b then b
  else if (Nat.eqb (length a) 0 || endswith_slash a)%bool then a ++ b
  else a ++ [SLASH] ++ b.

End Py.

(** ** [clean_for_imdb] *)

Definition BR : str := lit "<br />".
Definition QUOT : str := lit "&quot;".
Definition PARA : str := lit "<p>".
Definition A_HREF : str := lit "<a href=".
Definition GT : str := lit ">".
Definition A_CLOSE : str := lit "</a>".
Definition BACKSLASH_N : str := lit "\n".
Definition SPACE : str := lit " ".
Definition DQUOTE : str := [34%N].

(** One pass through the body of the [while] loop (lines 21-29).  Line 28
    reads a single character, [st[start_pos + len("<a href=")]], and so
    raises when nothing follows the tag.  The calls to the logger are left
    out. *)
Definition href_step (st : str) : res str :=
  let start_pos := Py.find A_HREF st 0 in
  let end_pos := Py.find GT st start_pos in
  if negb (end_pos =? -1) then
    Ok (Py.slice st None (Some start_pos) ++ Py.slice st (Some (end_pos + 1)) None)
  else
    c ← Py.getitem st (start_pos + Py.len A_HREF);
    Ok (Py.slice st None (Some start_pos) ++ [c]).

(** The [while] loop (line 20). *)
Fixpoint href_loop (fuel : nat) (st : str) : res str :=
  if Py.contains A_HREF st then
    match fuel with
    | O => OutOfFuel
    | S fuel' => st' ← href_step st; href_loop fuel' st'
    end
  else Ok st.

(** The three replacements of lines 16-18. *)
Definition clean_head (st : str) : str :=
  Py.replace PARA SPACE (Py.replace QUOT DQUOTE (Py.replace BR SPACE st)).

Definition clean_for_imdb_fuel (fuel : nat) (st : str) : res str :=
  let st := clean_head st in
  st ← (if Py.contains A_HREF st then
          st ← href_loop fuel st;
          Ok (Py.replace A_CLOSE [] st)
        else Ok st);
  Ok (Py.replace BACKSLASH_N SPACE st).

(** The loop is given as many rounds as the string has characters. *)
Definition clean_for_imdb (st : str) : res str :=
  clean_for_imdb_fuel (length (clean_head st)) st.


(** ** The cleaning as it is documented

    A second description of [clean_for_imdb], written over the text before
    and after a marker instead of over indices; it is undefined ([None])
    where an opening anchor tag is never closed. *)

Module Words.

(** [s.partition(sep)]: what precedes and what follows the leftmost [sep]. *)
Fixpoint partition (sep s : str) : option (str * str) :=
  if Py.startswith sep s then Some ([], drop (length sep) s)
  else match s with
       | [] => None
       | c :: s' =>
           match partition sep s' with
           | Some (a, b) => Some (c :: a, b)
           | None => None
           end
       end.

Inductive cut :=
| NoTag
| Unterminated
| Cut (s : str).

(** Delete the leftmost opening anchor tag, up to and including its [>]. *)
Definition cut_tag (s : str) : cut :=
  match partition A_HREF s with
  | None => NoTag
  | Some (pre, rest) =>
      match partition GT rest with
      | Some (_, post) => Cut (pre ++ post)
      | None => Unterminated
      end
  end.

(** Delete opening anchor tags until none is left. *)
Fixpoint strip_tags (fuel : nat) (s : str) : option str :=
  match cut_tag s with
  | NoTag => Some s
  | Unterminated => None
  | Cut s' =>
      match fuel with
      | O => None
      | S fuel' => strip_tags fuel' s'
      end
  end.

(** Every marker is treated, whatever else the string holds. *)
Definition clean_all (st : str) : option str :=
  let s := clean_head st in
  s' ← strip_tags (length s) s;
  Some (Py.replace BACKSLASH_N SPACE (Py.replace A_CLOSE [] s')).

(** Closing tags go only where an opening tag was seen. *)
Definition clean_gated (st : str) : option str :=
  let s := clean_head st in
  s' ← strip_tags (length s) s;
  Some (Py.replace BACKSLASH_N SPACE
          (if Py.contains A_HREF s then Py.replace A_CLOSE [] s' else s')).

End Words.

(** ** The driver *)

Abbreviation row := (list str).
Abbreviation table := (list (list str)).

(** What the driver does to its environment, in order: it opens a file and
    reads it, it calls the model, it asks for a file to be opened for
    writing. *)
Inductive event :=
| EvRead (path : str)
| EvTranslate (gpu_num : option Z) (doc : list str)
| EvWrite (path : str).

(** What the host may refuse when the output is written: to open a file for
    writing, to take a row into a file that holds the given rows, and to
    close a file that holds the given rows.  [None] is consent, otherwise the
    exception is the host's: an [OSError] or one of its kin for a missing or
    protected directory or a full disk, a [UnicodeEncodeError] for a row the
    encoding of the output cannot take. *)
Record Host := mkHost {
  open_error : str -> option exn;
  write_error : table -> list str -> option exn;
  close_error : table -> option exn
}.

(** The files, each as the rows the [csv] module reads or is given, the
    actions so far, and the host. *)
Record World := mkWorld {
  files : gmap str table;
  trace : list event;
  host : Host
}.

(** State over [World], with exceptions. *)
Definition M (A : Type) : Type := World -> res A * World.

Definition ret {A} (a : A) : M A := fun w => (Ok a, w).

Definition bind {A B} (m : M A) (k : A -> M B) : M B :=
  fun w =>
    match m w with
    | (Ok a, w') => k a w'
    | (Raise e, w') => (Raise e, w')
    | (OutOfFuel, w') => (OutOfFuel, w')
    end.

Definition lift {A} (r : res A) : M A := fun w => (r, w).

Definition log (e : event) : M unit :=
  fun w => (Ok tt, mkWorld (files w) (trace w ++ [e]) (host w)).

Definition lookup_file (path : str) : M table :=
  fun w =>
    match files w !! path with
    | Some t => (Ok t, w)
    | None => (Raise FileNotFoundError, w)
    end.

(** The host decides whether the file can be opened; if it can, the file
    exists and is empty from here on. *)
Definition truncate_file (path : str) : M unit :=
  fun w =>
    match open_error (host w) path with
    | Some e => (Raise e, w)
    | None => (Ok tt, mkWorld (<[path := []]> (files w)) (trace w) (host w))
    end.

Definition py_assert (b : bool) : M unit :=
  if b then ret tt else lift (Raise AssertionError).

Global Instance M_mret : MRet M := @ret.
Global Instance M_mbind : MBind M := fun A B k m => bind m k.

(** [with open(path) as f: for line in csv.reader(f): data.append(line)].
    A file is kept as the rows the [csv] module parses it into; decoding and
    quoting are the library's. *)
Definition read_tsv (path : str) : M table :=
  log (EvRead path) ;; lookup_file path.

(** [open(path, "wt")] (line 123): it is attempted, and may be refused. *)
Definition open_wt (path : str) : M unit :=
  log (EvWrite path) ;; truncate_file path.

(** [writerow] (lines 125 and 127): the row is added to the file unless the
    host refuses it; the rows written before stay. *)
Definition writerow (path : str) (r : row) : M unit :=
  fun w =>
    let cur := default [] (files w !! path) in
    match write_error (host w) cur r with
    | Some e => (Raise e, w)
    | None => (Ok tt, mkWorld (<[path := cur ++ [r]]> (files w)) (trace w) (host w))
    end.

(** Closing the file, which the host may refuse as well. *)
Definition close_file (path : str) : M unit :=
  fun w =>
    match close_error (host w) (default [] (files w !! path)) with
    | Some e => (Raise e, w)
    | None => (Ok tt, w)
    end.

(** Leaving the [with] block of line 123 closes the file, also when the
    block has raised; an exception of the closing then takes the place of
    that of the block. *)
Definition close_after {A} (path : str) (body : M A) : M A :=
  fun w =>
    match body w with
    | (Ok a, w1) =>
        match close_file path w1 with
        | (Ok _, w2) => (Ok a, w2)
        | (Raise e, w2) => (Raise e, w2)
        | (OutOfFuel, w2) => (OutOfFuel, w2)
        end
    | (Raise e, w1) =>
        match close_file path w1 with
        | (Raise e', w2) => (Raise e', w2)
        | (_, w2) => (Raise e, w2)
        end
    | (OutOfFuel, w1) => (OutOfFuel, w1)
    end.

Fixpoint writerows (path : str) (rs : table) : M unit :=
  match rs with
  | [] => ret tt
  | r :: rs' => writerow path r ;; writerows path rs'
  end.

(** Lines 126-127: the rows made of a translated line and its label, as
    many as the shorter of the two lists. *)
Definition out_rows (back_translated_docs labels : list str) : table :=
  zip_with (fun line label => [line; label]) back_translated_docs labels.

Section Driver.

(** Decoding and model options: the driver only forwards them. *)
Context {Opts : Type}.

Record Args := mkArgs {
  data_dir : str;
  output_dir : str;
  gpus : option (list Z);
  opts : Opts
}.

(** [BackTranslator(...).backtranslate_docs(doc, ...)], the external model:
    it sees the arguments, the device number and the documents, and is
    taken to return. *)
Variable backtranslate_docs : Args -> option Z -> list str -> list str.

(** [translate] (lines 36-59) *)
Definition translate (args : Args) (doc : list str) (gpu_num : option Z)
  : M (list str) :=
  log (EvTranslate gpu_num doc);;
  ret (backtranslate_docs args gpu_num doc).

(** The body of the sharding loop for one [gpu_id] (lines 88-90). *)
Definition shard (text : list str) (n split_point gpu_id : Z) : list str :=
  let s := Py.slice text (Some (gpu_id * split_point))
                         (Some ((gpu_id + 1) * split_point)) in
  if gpu_id =? n - 1
  then s ++ Py.slice text (Some ((gpu_id + 1) * split_point)) None
  else s.

(** Lines 84-90: [text_splitted] after the loop over [args.gpus]. *)
Definition split_text (text : list str) (g : list Z) : list (list str) :=
  let split_point := Py.floordiv (Py.len text) (Py.len g) in
  fold_left (fun text_splitted gpu_id =>
               text_splitted ++ [shard text (Py.len g) split_point gpu_id])
            g [].

(** [multi_translate] (lines 62-64): a worker translates its documents and
    puts the result on the queue; the value here is what it puts. *)
Definition multi_translate (args : Args) (gpu_num : Z) (doc : list str)
  : M (list str) :=
  translate args doc (Some gpu_num).

(** Lines 96-100: one worker per element of [args.gpus], started in order.
    Worker [i] gets [text_splitted[i]] and device [i]; [text_splitted] has
    one entry per element of [args.gpus], so the index is always in range.
    The list returned holds what each worker will put on the queue. *)
Fixpoint start_workers (args : Args) (i : Z) (shards : list (list str))
  : M (list (list str)) :=
  match shards with
  | [] => ret []
  | doc :: shards' =>
      r ← multi_translate args i doc;
      rs ← start_workers args (i + 1) shards';
      ret (r :: rs)
  end.

(** Lines 96-104.  The parent takes one result per worker from the queue,
    in the order [arrival] in which the workers delivered them: a
    permutation of the worker numbers, which the statements that need it
    assume. *)
Definition fan_out (args : Args) (arrival : list nat)
    (text_splitted : list (list str)) : M (list str) :=
  results ← start_workers args 0 text_splitted;
  ret (concat (map (fun k => default [] (results !! k)) arrival)).

(** Lines 82-118. *)
Definition back_translate (args : Args) (arrival : list nat)
    (text : list str) : M (list str) :=
  match gpus args with
  | Some g =>
      if 1 <? Py.len g then
        let text_splitted := split_text text g in
        py_assert (Py.sum_len text_splitted =? Py.len text);;
        fan_out args arrival text_splitted
      else
        gpu ← lift (Py.getitem g 0);
        translate args text (Some gpu)
  | None => translate args text None
  end.

(** Line 72: [text, labels] are the two columns of [data[1:]]; any other
    number of columns fails to unpack.  (Lines 74-75 turn the tuple of texts
    into a list; both are lists here.) *)
Definition unpack_columns (data : table) : res (list str * list str) :=
  match Py.zip_star (Py.slice data (Some 1) None) with
  | [text; labels] => Ok (text, labels)
  | _ => Raise ValueError
  end.

(** Line 77 *)
Definition is_imdb (path : str) : bool :=
  Py.contains (lit "imdb") path || Py.contains (lit "IMDB") path.

(** Lines 77-78 *)
Definition prepare (path : str) (text : list str) : res (list str) :=
  if is_imdb path then res_map clean_for_imdb text else Ok text.

(** Lines 121-122 *)
Definition output_path (args : Args) : str :=
  Py.path_join (output_dir args) (lit "bt_" ++ Py.basename (data_dir args)).

(** Lines 124-127: the block under [with]. *)
Definition write_table (path : str) (data : table)
    (labels back_translated_docs : list str) : M unit :=
  header ← lift (Py.getitem data 0);
  writerow path header;;
  writerows path (out_rows back_translated_docs labels).

(** Lines 121-127 *)
Definition write_output (args : Args) (data : table)
    (labels back_translated_docs : list str) : M unit :=
  open_wt (output_path args);;
  close_after (output_path args)
    (write_table (output_path args) data labels back_translated_docs).

(** Lines 80-127: what [main] does with the texts once they are prepared. *)
Definition translate_and_write (arrival : list nat) (args : Args)
    (data : table) (labels text : list str) : M unit :=
  back_translated_docs ← back_translate args arrival text;
  py_assert (Py.len labels =? Py.len back_translated_docs);;
  write_output args data labels back_translated_docs.

(** [main] (lines 67-129) *)
Definition main (arrival : list nat) (args : Args) : M unit :=
  data ← read_tsv (data_dir args);
  cols ← lift (unpack_columns data);
  let labels := cols.2 in
  text ← lift (prepare (data_dir args) cols.1);
  translate_and_write arrival args data labels text.

(** Lines 216-228: the check on the number of devices, then [main]. *)
Definition script (device_count : Z) (arrival : list nat) (args : Args)
  : M unit :=
  match gpus args with
  | Some g => py_assert (Py.len g <=? device_count)
  | None => ret tt
  end;;
  main arrival args.

(** The world once [main] has opened its input. *)
Definition after_read (args : Args) (w : World) : World :=
  mkWorld (files w) (trace w ++ [EvRead (data_dir args)]) (host w).

End Driver.

(** ** Vocabulary of the statements *)

(** The opening tag with backslash-n where its space is. *)
Definition A_NL_HREF : str := lit "<a\nhref=".

(** [k] copies of [g], one after the other. *)
Definition copies (k : nat) (g : str) : str := concat (replicate k g).

(** [pat] with [ks !! i] copies of [gap] put after its character [i]; none
    where [ks] has run out, and none after the last character. *)
Fixpoint splice (gap : str) (ks : list nat) (pat : str) : str :=
  match pat with
  | [] => []
  | c :: pat' =>
      match pat', ks with
      | _ :: _, k :: ks' => c :: copies k gap ++ splice gap ks' pat'
      | _, _ => pat
      end
  end.

(** The strings that replacing [old] by the one character [x] turns into
    [pat]: any [x] of [pat] may have been an [old]. *)
Fixpoint unreplaced (old : str) (x : N) (pat : str) : list str :=
  match pat with
  | [] => [[]]
  | c :: pat' =>
      map (cons c) (unreplaced old x pat')
      ++ (if N.eqb c x then map (app old) (unreplaced old x pat') else [])
  end.

(** Column [j] of a table; [None] where a row is too short. *)
Definition column (j : nat) (t : table) : list (option str) :=
  map (fun r => r !! j) t.

Definition is_translate (e : event) : Prop :=
  match e with
  | EvTranslate _ _ => True
  | _ => False
  end.

(** An action that leaves the files alone and only calls the model. *)
Definition quiet {A} (m : M A) : Prop :=
  ∀ w, (files (m w).2 = files w ∧ host (m w).2 = host w) ∧
       ∃ evs, trace (m w).2 = trace w ++ evs ∧ Forall is_translate evs.

(** The host takes the rows [rs], one after the other, into a file that
    holds [cur]. *)
Fixpoint takes_rows (h : Host) (cur rs : table) : bool :=
  match rs with
  | [] => true
  | r :: rs' =>
      match write_error h cur r with
      | Some _ => false
      | None => takes_rows h (cur ++ [r]) rs'
      end
  end.

(** The host lets the table [t] be written to [path]. *)
Definition takes_table (h : Host) (path : str) (t : table) : bool :=
  match open_error h path, close_error h t with
  | None, None => takes_rows h [] t
  | _, _ => false
  end.

(** Two worlds with the same files and the same host, and an action whose
    outcome and files depend on nothing else. *)
Definition same_store (w w' : World) : Prop :=
  files w = files w' ∧ host w = host w'.

Definition store_only {A} (m : M A) : Prop :=
  ∀ w w', same_store w w' →
          (m w).1 = (m w').1 ∧ same_store (m w).2 (m w').2.

(** The exception [e] is one the host raises at some request. *)
Definition host_raises (h : Host) (e : exn) : Prop :=
  (∃ p, open_error h p = Some e) ∨
  (∃ cur r, write_error h cur r = Some e) ∨
  (∃ t, close_error h t = Some e).

(** ** Sample runs *)

(** A host that refuses nothing, one with no directory to write into, and
    one whose encoding has no exclamation mark. *)
Definition willing : Host :=
  mkHost (fun _ => None) (fun _ _ => None) (fun _ => None).

Definition no_directory : Host :=
  mkHost (fun _ => Some FileNotFoundError) (fun _ _ => None) (fun _ => None).

Definition has_bang (r : list str) : bool :=
  existsb (fun field => existsb (N.eqb 33) field) r.

Definition no_bang : Host :=
  mkHost (fun _ => None)
         (fun _ r => if has_bang r then Some UnicodeEncodeError else None)
         (fun _ => None).

Definition sample_data : table :=
  [ [lit "text"; lit "label"];
    [lit "good<br />film"; lit "1"];
    [lit "bad"; lit "0"];
    [lit "so-so"; lit "1"; lit "extra"] ].

Definition sample_world (path : str) : World :=
  mkWorld {[ path := sample_data ]} [] willing.

Definition sample_args (path : str) (g : option (list Z)) : @Args unit :=
  mkArgs path (lit "out") g tt.

(** A model that answers one text per text, and one that loses the first. *)
Definition echo_model (a : @Args unit) (d : option Z) (doc : list str)
  : list str := map (fun s => s ++ lit "!") doc.

Definition lossy_model (a : @Args unit) (d : option Z) (doc : list str)
  : list str := tail doc.

Definition four_rows : table :=
  [ [lit "text"; lit "label"];
    [lit "a"; lit "1"]; [lit "b"; lit "0"];
    [lit "c"; lit "1"]; [lit "d"; lit "0"] ].

Definition four_texts : list str := [lit "a"; lit "b"; lit "c"; lit "d"].

Definition train_tsv : str := lit "data/train.tsv".

Definition four_world : World :=
  mkWorld {[ train_tsv := four_rows ]} [] willing.

Definition imdb_tsv : str := lit "data/imdb_train.tsv".
Definition Imdb_tsv : str := lit "data/Imdb.tsv".

Definition sample_texts : list str :=
  [lit "good<br />film"; lit "bad"; lit "so-so"].
Definition sample_labels : list str := [lit "1"; lit "0"; lit "1"].

(** On the CPU, with the cleaning; on two devices whose results arrive in
    the opposite order; and with the model that loses a text. *)
Definition cpu_run : res unit * World :=
  main echo_model [] (sample_args imdb_tsv None) (sample_world imdb_tsv).

Definition gpu_run : res unit * World :=
  main echo_model [1; 0]%nat (sample_args train_tsv (Some [0; 1]))
       (sample_world train_tsv).

(** The same run on a host whose output encoding has no exclamation mark,
    and one on a host with no directory to write into. *)
Definition strict_world : World :=
  mkWorld {[ train_tsv := sample_data ]} [] no_bang.

Definition strict_run : res unit * World :=
  main echo_model [] (sample_args train_tsv None) strict_world.

Definition homeless_world : World :=
  mkWorld {[ train_tsv := sample_data ]} [] no_directory.

Definition homeless_run : res unit * World :=
  main echo_model [] (sample_args train_tsv None) homeless_world.

Definition lossy_run : res (list str) * World :=
  back_translate lossy_model (sample_args train_tsv None) [] sample_texts
    (after_read (sample_args train_tsv None) (sample_world train_tsv)).

(** A table with a text that ends in an opening anchor tag, and a file with
    nothing but its header. *)
Definition bad_data : table :=
  [ [lit "text"; lit "label"];
    [lit "fine"; lit "1"];
    [lit "see <a href="; lit "0"] ].

Definition bad_world : World :=
  mkWorld {[ imdb_tsv := bad_data ]} [] willing.

Definition header_only : table := [ [lit "text"; lit "label"] ].

Definition header_only_world : World :=
  mkWorld {[ train_tsv := header_only ]} [] willing.

Definition exclaim (s : str) : str := s ++ lit "!".

(** * Properties *)

(** ** Python primitives *)

Section PyFacts.

Lemma startswith_app (p t : str) : Py.startswith p (p ++ t) = true.
Proof.
  induction p as [|a p IH]; simpl; [done|].
  by rewrite N.eqb_refl, IH.
Qed.

Lemma startswith_inv (p s : str) :
  Py.startswith p s = true → s = p ++ drop (length p) s.
Proof.
  revert s. induction p as [|a p IH]; intros [|b s] H; simpl in *; try done.
  apply andb_true_iff in H as [Hab H]. apply N.eqb_eq in Hab as ->.
  f_equal. by apply IH.
Qed.

Lemma startswith_length (p s : str) :
  Py.startswith p s = true → (length p ≤ length s)%nat.
Proof.
  intros H%startswith_inv. rewrite H, length_app. lia.
Qed.

(** [find_from] either fails with [-1] or lands on an occurrence. *)
Lemma find_from_range (sub s : str) (i : Z) :
  Py.find_from sub s i = -1 ∨
  (i ≤ Py.find_from sub s i ∧
   Py.find_from sub s i - i + Py.len sub ≤ Py.len s).
Proof.
  unfold Py.len. revert i. induction s as [|c s IH]; intros i; simpl.
  - destruct (Py.startswith sub []) eqn:E; [|by left].
    right. apply startswith_length in E. simpl in *. lia.
  - destruct (Py.startswith sub (c :: s)) eqn:E.
    + right. apply startswith_length in E. simpl in *. lia.
    + destruct (IH (i + 1)) as [->|[? ?]]; [by left|right]. lia.
Qed.

Lemma find_from_contains (sub s : str) (i : Z) :
  0 ≤ i → Py.contains sub s = true → Py.find_from sub s i ≠ -1.
Proof.
  revert i. induction s as [|c s IH]; intros i Hi; simpl.
  - rewrite orb_false_r. intros ->. lia.
  - destruct (Py.startswith sub (c :: s)); simpl; [lia|].
    intros H. apply IH; [lia|done].
Qed.

Lemma find_from_not_contains (sub s : str) (i : Z) :
  Py.contains sub s = false → Py.find_from sub s i = -1.
Proof.
  revert i. induction s as [|c s IH]; intros i; simpl.
  - rewrite orb_false_r. by intros ->.
  - intros [-> H]%orb_false_iff. by apply IH.
Qed.

Lemma find_zero (sub s : str) : Py.find sub s 0 = Py.find_from sub s 0.
Proof.
  unfold Py.find, Py.slice_bound, Py.len. simpl.
  replace (Z.min 0 (Z.of_nat (length s))) with 0 by lia. done.
Qed.

Lemma find_in_range (sub s : str) (k : Z) :
  0 ≤ k ≤ Py.len s →
  Py.find sub s k = Py.find_from sub (drop (Z.to_nat k) s) k.
Proof.
  intros Hk. unfold Py.find, Py.slice_bound.
  destruct (k <? 0) eqn:E; [lia|].
  by replace (Z.min k (Py.len s)) with k by lia.
Qed.

Lemma slice_to {A} (l : list A) (k : Z) :
  0 ≤ k → Py.slice l None (Some k) = take (Z.to_nat k) l.
Proof.
  intros Hk. unfold Py.slice, Py.slice_bound, Py.len.
  destruct (k <? 0) eqn:E; [lia|]. rewrite drop_0, Z.sub_0_r.
  destruct (Z.le_ge_cases k (Z.of_nat (length l))).
  - by rewrite Z.min_l.
  - rewrite Z.min_r, Nat2Z.id by done.
    rewrite !take_ge; [done|lia|lia].
Qed.

Lemma slice_from {A} (l : list A) (k : Z) :
  0 ≤ k → Py.slice l (Some k) None = drop (Z.to_nat k) l.
Proof.
  intros Hk. unfold Py.slice, Py.slice_bound, Py.len.
  destruct (k <? 0) eqn:E; [lia|].
  destruct (Z.le_ge_cases k (Z.of_nat (length l))).
  - rewrite Z.min_l by done. apply take_ge. rewrite length_drop. lia.
  - rewrite Z.min_r, Nat2Z.id, Z.sub_diag by done. simpl.
    rewrite take_0, drop_ge; [done|lia].
Qed.

Lemma slice_between {A} (l : list A) (a b : Z) :
  0 ≤ a ≤ b → b ≤ Py.len l →
  Py.slice l (Some a) (Some b) = take (Z.to_nat (b - a)) (drop (Z.to_nat a) l).
Proof.
  intros Ha Hb. unfold Py.slice, Py.slice_bound.
  destruct (a <? 0) eqn:E1; [lia|]. destruct (b <? 0) eqn:E2; [lia|].
  by rewrite !Z.min_l by lia.
Qed.

Lemma getitem_ok {A} (l : list A) (i : Z) (x : A) :
  Py.getitem l i = Ok x → i < Py.len l.
Proof.
  unfold Py.getitem, Py.len.
  destruct (Z.ltb_spec i 0); [lia|].
  destruct (Z.ltb_spec i 0); [lia|].
  destruct (l !! Z.to_nat i) eqn:El; [|done].
  apply lookup_lt_Some in El. lia.
Qed.

(** A string without occurrence of [old] is left alone by [replace]. *)
Lemma replace_absent (old new s : str) :
  Py.contains old s = false → Py.replace old new s = s.
Proof.
  unfold Py.replace. induction s as [|c s IH]; simpl; [done|].
  intros [-> H]%orb_false_iff. f_equal. by apply IH.
Qed.

End PyFacts.

(** ** [clean_for_imdb]: the loop *)

Lemma len_A_HREF : Py.len A_HREF = 8.
Proof. reflexivity. Qed.

Lemma contains_length (sub s : str) :
  Py.contains sub s = true → (length sub ≤ length s)%nat.
Proof.
  induction s as [|c s IH]; simpl.
  - rewrite orb_false_r. apply startswith_length.
  - intros [E|E]%orb_true_iff.
    + by apply startswith_length in E.
    + apply IH in E. lia.
Qed.

Lemma href_absent_short (s : str) :
  (length s < 8)%nat → Py.contains A_HREF s = false.
Proof.
  intros H. destruct (Py.contains A_HREF s) eqn:E; [exfalso|done].
  apply contains_length in E. change (length A_HREF) with 8%nat in E. lia.
Qed.

Lemma href_step_shrinks (st st' : str) :
  Py.contains A_HREF st = true →
  href_step st = Ok st' →
  (length st' < length st)%nat.
Proof.
  intros Hin. unfold href_step. rewrite find_zero.
  pose proof (find_from_range A_HREF st 0) as Hsp.
  pose proof (find_from_contains A_HREF st 0 ltac:(lia) Hin) as Hsp'.
  rewrite len_A_HREF in *.
  set (sp := Py.find_from A_HREF st 0) in *.
  destruct Hsp as [?|[Hsp0 Hsp8]]; [done|].
  rewrite find_in_range by lia.
  pose proof (find_from_range GT (drop (Z.to_nat sp) st) sp) as He.
  set (e := Py.find_from GT (drop (Z.to_nat sp) st) sp) in *.
  unfold Py.len in He, Hsp8. rewrite length_drop in He. 
  destruct (Z.eqb_spec e (-1)) as [Heq|Hne]; simpl.
  - destruct (Py.getitem st (sp + 8)) as [c| |] eqn:Hc; simpl; try done.
    intros [= <-]. apply getitem_ok in Hc. unfold Py.len in Hc.
    rewrite slice_to by lia. rewrite length_app, length_take. simpl. lia.
  - destruct He as [?|[He1 He2]]; [contradiction|].
    intros [= <-]. rewrite slice_to, slice_from by lia.
    rewrite length_app, length_take, length_drop.
    change (Py.len GT) with 1 in He2. lia.
Qed.

Lemma href_step_not_out_of_fuel (st : str) : href_step st ≠ OutOfFuel.
Proof.
  unfold href_step. destruct (negb _); [done|].
  unfold Py.getitem. destruct (_ <? 0); [done|].
  destruct (_ !! _); done.
Qed.

Lemma href_loop_enough_fuel (fuel : nat) (st : str) :
  (length st ≤ fuel)%nat → href_loop fuel st ≠ OutOfFuel.
Proof.
  revert st. induction fuel as [|fuel IH]; intros st Hlen; simpl.
  - rewrite href_absent_short by lia. done.
  - destruct (Py.contains A_HREF st) eqn:Hin; [|done].
    destruct (href_step st) as [st'| |] eqn:Hstep; simpl; [|done|].
    + apply IH. apply href_step_shrinks in Hstep; [lia|done].
    + by apply href_step_not_out_of_fuel in Hstep.
Qed.

Lemma href_loop_more_fuel (f1 f2 : nat) (st : str) :
  (length st ≤ f1)%nat → (length st ≤ f2)%nat →
  href_loop f1 st = href_loop f2 st.
Proof.
  revert f2 st. induction f1 as [|f1 IH]; intros f2 st H1 H2.
  - destruct f2; simpl; rewrite href_absent_short by lia; done.
  - destruct f2 as [|f2]; simpl.
    + rewrite href_absent_short by lia; done.
    + destruct (Py.contains A_HREF st) eqn:Hin; [|done].
      destruct (href_step st) as [st'| |] eqn:Hstep; simpl; try done.
      apply href_step_shrinks in Hstep; [|done]. apply IH; lia.
Qed.

Lemma href_loop_exit (fuel : nat) (st s : str) :
  href_loop fuel st = Ok s → Py.contains A_HREF s = false.
Proof.
  revert st. induction fuel as [|fuel IH]; intros st; simpl.
  - destruct (Py.contains A_HREF st) eqn:Hin; [done|]. by intros [= <-].
  - destruct (Py.contains A_HREF st) eqn:Hin; [|by intros [= <-]].
    destruct (href_step st) as [st'| |]; simpl; try done. apply IH.
Qed.

(** ** [clean_for_imdb] against its description *)

Lemma partition_some (sep s a b : str) (i : Z) :
  Words.partition sep s = Some (a, b) →
  s = a ++ sep ++ b ∧ Py.find_from sep s i = i + Py.len a.
Proof.
  revert a i. induction s as [|c s IH]; intros a i; simpl.
  - destruct (Py.startswith sep []) eqn:E; [|done].
    intros [= <- <-]. split; [|unfold Py.len; simpl; lia].
    by apply startswith_inv in E.
  - destruct (Py.startswith sep (c :: s)) eqn:E.
    + intros [= <- <-]. split; [|unfold Py.len; simpl; lia].
      by apply startswith_inv in E.
    + destruct (Words.partition sep s) as [[a' b']|] eqn:Hp; [|done].
      intros [= <- <-]. destruct (IH a' (i + 1) eq_refl) as [-> ->].
      split; [done|]. unfold Py.len. simpl length. lia.
Qed.

Lemma partition_none (sep s : str) :
  Words.partition sep s = None → Py.contains sep s = false.
Proof.
  induction s as [|c s IH]; simpl.
  - by destruct (Py.startswith sep []).
  - destruct (Py.startswith sep (c :: s)); [done|].
    destruct (Words.partition sep s) as [[a b]|]; [done|]. auto.
Qed.

Lemma contains_startswith (sub s : str) :
  Py.startswith sub s = true → Py.contains sub s = true.
Proof. intros H. destruct s; simpl; by rewrite H. Qed.

Lemma contains_app (sub a b : str) :
  Py.contains sub (a ++ sub ++ b) = true.
Proof.
  induction a as [|c a IH]; simpl.
  - apply contains_startswith, startswith_app.
  - rewrite IH. apply orb_true_r.
Qed.

Lemma find_gt_past_href (rest : str) (i : Z) :
  Py.find_from GT (A_HREF ++ rest) i = Py.find_from GT rest (i + 8).
Proof.
  change (A_HREF ++ rest) with
    (60 :: 97 :: 32 :: 104 :: 114 :: 101 :: 102 :: 61 :: rest)%N.
  change GT with [62%N].
  simpl. f_equal. lia.
Qed.

Lemma cut_tag_no_tag (s : str) :
  Words.cut_tag s = Words.NoTag → Py.contains A_HREF s = false.
Proof.
  unfold Words.cut_tag.
  destruct (Words.partition A_HREF s) as [[pre rest]|] eqn:Hp.
  - by destruct (Words.partition GT rest) as [[? ?]|].
  - intros _. by apply partition_none.
Qed.

Lemma cut_tag_step (s s' : str) :
  Words.cut_tag s = Words.Cut s' →
  Py.contains A_HREF s = true ∧ href_step s = Ok s'.
Proof.
  unfold Words.cut_tag.
  destruct (Words.partition A_HREF s) as [[pre rest]|] eqn:Hp; [|done].
  destruct (Words.partition GT rest) as [[mid post]|] eqn:Hq; [|done].
  intros [= <-].
  destruct (partition_some _ _ _ _ 0 Hp) as [Hs Hsp].
  destruct (partition_some _ _ _ _ (Py.len pre + 8) Hq) as [Hrest He].
  split; [rewrite Hs; apply contains_app|].
  unfold href_step. rewrite find_zero, Hsp, Z.add_0_l.
  assert (Hdrop : drop (Z.to_nat (Py.len pre)) s = A_HREF ++ rest).
  { unfold Py.len. rewrite Nat2Z.id, Hs. apply drop_app_length. }
  assert (Hlen : Py.len s = Py.len pre + 8 + Py.len mid + 1 + Py.len post).
  { rewrite Hs, Hrest. unfold Py.len. rewrite !length_app.
    change (length A_HREF) with 8%nat. change (length GT) with 1%nat. lia. }
  rewrite find_in_range by (unfold Py.len in *; lia).
  rewrite Hdrop, find_gt_past_href, He.
  destruct (Z.eqb_spec (Py.len pre + 8 + Py.len mid) (-1)) as [Hneg|_];
    [unfold Py.len in Hneg; lia|]. simpl negb. cbv iota.
  rewrite slice_to, slice_from by (unfold Py.len; lia).
  f_equal. f_equal.
  - unfold Py.len. rewrite Nat2Z.id, Hs. apply take_app_length.
  - rewrite Hs, Hrest. unfold Py.len.
    replace (Z.to_nat (Z.of_nat (length pre) + 8 + Z.of_nat (length mid) + 1))
      with (length (pre ++ A_HREF ++ mid ++ GT))%nat.
    + replace (pre ++ A_HREF ++ mid ++ GT ++ post)
        with ((pre ++ A_HREF ++ mid ++ GT) ++ post)
        by (by rewrite <- !app_assoc).
      apply drop_app_length.
    + rewrite !length_app. change (length A_HREF) with 8%nat.
      change (length GT) with 1%nat. lia.
Qed.

Lemma strip_tags_loop (fuel : nat) (s r : str) :
  Words.strip_tags fuel s = Some r → href_loop fuel s = Ok r.
Proof.
  revert s. induction fuel as [|fuel IH]; intros s; simpl.
  - destruct (Words.cut_tag s) eqn:Hc; try done.
    intros [= <-]. by rewrite (cut_tag_no_tag _ Hc).
  - destruct (Words.cut_tag s) as [| |s'] eqn:Hc; try done.
    + intros [= <-]. by rewrite (cut_tag_no_tag _ Hc).
    + destruct (cut_tag_step _ _ Hc) as [-> ->]. simpl. apply IH.
Qed.


(** ** The driver *)

Lemma column_out_rows (back labels : list str) :
  length labels = length back →
  column 0 (out_rows back labels) = map Some back ∧
  column 1 (out_rows back labels) = map Some labels.
Proof.
  revert labels. induction back as [|b back IH]; intros [|l labels] Hlen;
    simpl in *; try done.
  destruct (IH labels) as [-> ->]; [lia|done].
Qed.

Lemma column_of_rows (j : nat) (rows : table) (col : list str) :
  length col = length rows →
  (∀ i r, rows !! i = Some r → r !! j = col !! i) →
  column j rows = map Some col.
Proof.
  intros Hlen Hrows. apply list_eq. intros i. unfold column.
  rewrite !list_lookup_fmap.
  destruct (rows !! i) as [r|] eqn:Hr; simpl.
  - rewrite (Hrows _ _ Hr). destruct (col !! i) eqn:Hc; [done|].
    apply lookup_ge_None in Hc. apply lookup_lt_Some in Hr. lia.
  - apply lookup_ge_None in Hr. rewrite lookup_ge_None_2; [done|lia].
Qed.

Lemma res_map_length {A B} (f : A → res B) (xs : list A) (ys : list B) :
  res_map f xs = Ok ys → length ys = length xs.
Proof.
  revert ys. induction xs as [|x xs IH]; intros ys; simpl.
  - by intros [= <-].
  - destruct (f x); simpl; try done.
    destruct (res_map f xs); simpl; try done.
    intros [= <-]. simpl. f_equal. by apply IH.
Qed.

Lemma prepare_length (path : str) (text text' : list str) :
  prepare path text = Ok text' → length text' = length text.
Proof.
  unfold prepare. destruct (is_imdb path).
  - apply res_map_length.
  - by intros [= <-].
Qed.

Lemma out_rows_length (back labels : list str) :
  length labels = length back → length (out_rows back labels) = length labels.
Proof.
  intros H. unfold out_rows. rewrite length_zip_with. lia.
Qed.

Ltac munfold :=
  unfold mbind, M_mbind, bind, mret, M_mret, ret, lift, log, py_assert in *.

Section DriverFacts.
Context {Opts : Type}.
Variable bt : @Args Opts → option Z → list str → list str.

Lemma quiet_lift {A} (r : res A) : quiet (lift r).
Proof. intros w. split; [done|]. exists []. by rewrite app_nil_r. Qed.

Lemma quiet_ret {A} (a : A) : quiet (mret a : M A).
Proof. intros w. split; [done|]. exists []. by rewrite app_nil_r. Qed.

Lemma quiet_bind {A B} (m : M A) (k : A → M B) :
  quiet m → (∀ a, quiet (k a)) → quiet (m ≫= k).
Proof.
  intros Hm Hk w. munfold. destruct (Hm w) as [[Hf Hh] [evs [Ht He]]].
  destruct (m w) as [[a| |] w1]; simpl in *; [|by eauto|by eauto].
  destruct (Hk a w1) as [[Hf' Hh'] [evs' [Ht' He']]].
  split; [split; congruence|]. exists (evs ++ evs').
  rewrite Ht', Ht, app_assoc. split; [done|]. by apply Forall_app.
Qed.

Lemma quiet_assert (b : bool) : quiet (py_assert b).
Proof. unfold py_assert. destruct b; [apply quiet_ret|apply quiet_lift]. Qed.

Lemma quiet_translate args doc dev : quiet (translate bt args doc dev).
Proof.
  intros w. unfold translate. munfold. simpl. split; [done|].
  exists [EvTranslate dev doc]. split; [done|]. by repeat constructor.
Qed.

Lemma quiet_back_translate args arrival text :
  quiet (back_translate bt args arrival text).
Proof.
  unfold back_translate. destruct (gpus args) as [g|]; [|apply quiet_translate].
  destruct (1 <? Py.len g).
  - apply quiet_bind; [apply quiet_assert|]. intros _.
    unfold fan_out. apply quiet_bind; [|intros; apply quiet_ret].
    generalize 0. induction (split_text text g) as [|doc shards IH]; intros i.
    + apply quiet_ret.
    + apply (quiet_bind (multi_translate bt args i doc));
        [apply quiet_translate|]. intros r.
      apply quiet_bind; [apply IH|]. intros; apply quiet_ret.
  - apply quiet_bind; [apply quiet_lift|]. intros; apply quiet_translate.
Qed.


Lemma writerows_ok (p : str) (rs : table) (w : World) (cur : table) :
  files w !! p = Some cur →
  takes_rows (host w) cur rs = true →
  writerows p rs w
  = (Ok tt, mkWorld (<[p := cur ++ rs]> (files w)) (trace w) (host w)).
Proof.
  revert w cur. induction rs as [|r rs IH]; intros [fs tr h] cur Hcur Hrs;
    simpl in *.
  - munfold. by rewrite app_nil_r, insert_id.
  - munfold. unfold writerow at 1. simpl. rewrite Hcur. simpl.
    destruct (write_error h cur r); [done|].
    rewrite (IH _ (cur ++ [r])); simpl; [|by rewrite lookup_insert_eq|done].
    by rewrite insert_insert_eq, <- app_assoc.
Qed.

Lemma writerows_refused (p : str) (rs : table) (w : World) (cur : table) :
  files w !! p = Some cur →
  takes_rows (host w) cur rs = false →
  ∃ e t, host_raises (host w) e ∧
         writerows p rs w
         = (Raise e, mkWorld (<[p := t]> (files w)) (trace w) (host w)).
Proof.
  revert w cur. induction rs as [|r rs IH]; intros [fs tr h] cur Hcur Hrs;
    simpl in *; [done|].
  munfold. unfold writerow at 1. simpl. rewrite Hcur. simpl.
  destruct (write_error h cur r) as [e|] eqn:He.
  - exists e, cur. split; [right; left; eauto|]. by rewrite insert_id.
  - destruct (IH (mkWorld (<[p := cur ++ [r]]> fs) tr h) (cur ++ [r]))
      as (e & t & Hraise & ->); simpl; [by rewrite lookup_insert_eq|done|].
    exists e, t. split; [done|]. by rewrite insert_insert_eq.
Qed.

Lemma close_after_ok {A} (p : str) (body : M A) (w w1 : World) (a : A) :
  body w = (Ok a, w1) →
  close_after p body w =
  match close_error (host w1) (default [] (files w1 !! p)) with
  | Some e => (Raise e, w1)
  | None => (Ok a, w1)
  end.
Proof.
  intros Hbody. unfold close_after, close_file. rewrite Hbody.
  by destruct (close_error _ _).
Qed.

Lemma close_after_raise {A} (p : str) (body : M A) (w w1 : World) (e : exn) :
  body w = (Raise e, w1) → host_raises (host w1) e →
  ∃ e', host_raises (host w1) e' ∧ close_after p body w = (Raise e', w1).
Proof.
  intros Hbody He. unfold close_after, close_file. rewrite Hbody.
  destruct (close_error _ _) as [e'|] eqn:Hclose.
  - exists e'. split; [right; right; eauto|done].
  - by exists e.
Qed.

Lemma write_table_ok (p : str) header rest labels back (w : World) :
  files w !! p = Some [] →
  takes_rows (host w) [] (header :: out_rows back labels) = true →
  write_table p (header :: rest) labels back w
  = (Ok tt, mkWorld (<[p := header :: out_rows back labels]> (files w))
                    (trace w) (host w)).
Proof.
  cbn [takes_rows app]. intros Hp Htakes. unfold write_table. munfold. simpl.
  unfold writerow at 1. simpl. rewrite Hp. simpl.
  destruct (write_error (host w) [] header); [done|].
  rewrite (writerows_ok _ _ _ [header]); simpl;
    [|by rewrite lookup_insert_eq|done].
  by rewrite insert_insert_eq.
Qed.

Lemma write_table_refused (p : str) header rest labels back (w : World) :
  files w !! p = Some [] →
  takes_rows (host w) [] (header :: out_rows back labels) = false →
  ∃ e t, host_raises (host w) e ∧
         write_table p (header :: rest) labels back w
         = (Raise e, mkWorld (<[p := t]> (files w)) (trace w) (host w)).
Proof.
  cbn [takes_rows app]. intros Hp Htakes. unfold write_table. munfold. simpl.
  unfold writerow at 1. simpl. rewrite Hp. simpl.
  destruct (write_error (host w) [] header) as [e|] eqn:Hhead.
  - exists e, []. split; [right; left; eauto|]. rewrite insert_id by done.
    by destruct w.
  - destruct (writerows_refused p (out_rows back labels)
                (mkWorld (<[p := [header]]> (files w)) (trace w) (host w))
                [header]) as (e & t & Hraise & ->); simpl;
      [by rewrite lookup_insert_eq|done|].
    exists e, t. split; [done|]. by rewrite insert_insert_eq.
Qed.

Lemma write_output_ok (args : @Args Opts) header rest labels back (w : World) :
  takes_table (host w) (output_path args) (header :: out_rows back labels)
  = true →
  write_output args (header :: rest) labels back w =
  (Ok tt, mkWorld (<[output_path args := header :: out_rows back labels]> (files w))
                  (trace w ++ [EvWrite (output_path args)]) (host w)).
Proof.
  unfold takes_table. intros Htakes.
  unfold write_output, open_wt, truncate_file. munfold. simpl.
  destruct (open_error (host w) (output_path args)); [done|].
  destruct (close_error (host w) _) eqn:Hclose; [done|].
  erewrite close_after_ok; cycle 1.
  { apply write_table_ok; simpl; [by rewrite lookup_insert_eq|done]. }
  simpl. rewrite lookup_insert_eq. simpl. rewrite Hclose.
  by rewrite insert_insert_eq.
Qed.

Lemma write_output_refused (args : @Args Opts) header rest labels back
    (w : World) :
  takes_table (host w) (output_path args) (header :: out_rows back labels)
  = false →
  ∃ e fs, host_raises (host w) e ∧
          (∀ q, q ≠ output_path args → fs !! q = files w !! q) ∧
          write_output args (header :: rest) labels back w
          = (Raise e,
             mkWorld fs (trace w ++ [EvWrite (output_path args)]) (host w)).
Proof.
  unfold takes_table. intros Htakes.
  unfold write_output, open_wt, truncate_file. munfold. simpl.
  destruct (open_error (host w) (output_path args)) as [e|] eqn:Hopen.
  { exists e, (files w). split; [left; eauto|]. done. }
  set (w1 := mkWorld (<[output_path args := []]> (files w))
               (trace w ++ [EvWrite (output_path args)]) (host w)).
  assert (Hp : files w1 !! output_path args = Some [])
    by (simpl; by rewrite lookup_insert_eq).
  destruct (takes_rows (host w) [] (header :: out_rows back labels)) eqn:Hrows.
  - erewrite close_after_ok; cycle 1.
    { by apply write_table_ok. }
    simpl. rewrite lookup_insert_eq, insert_insert_eq. simpl.
    destruct (close_error (host w) _) as [e|] eqn:Hclose; [|done].
    exists e. eexists. split; [right; right; eauto|]. split; [|done].
    intros q Hq. by rewrite lookup_insert_ne.
  - destruct (write_table_refused (output_path args) header rest labels back
                w1 Hp Hrows) as (e & t & Hraise & Hbody).
    destruct (close_after_raise (output_path args) _ _ _ _ Hbody Hraise)
      as (e' & Hraise' & ->).
    exists e'. eexists. split; [done|]. split; [|done].
    intros q Hq. simpl. by rewrite !lookup_insert_ne.
Qed.

(** What is written, and whether it is, does not depend on the trace. *)
Lemma store_only_ret {A} (a : A) : store_only (ret a).
Proof. by intros w w' H. Qed.

Lemma store_only_lift {A} (r : res A) : store_only (lift r).
Proof. by intros w w' H. Qed.

Lemma store_only_bind {A B} (m : M A) (k : A → M B) :
  store_only m → (∀ a, store_only (k a)) → store_only (bind m k).
Proof.
  intros Hm Hk w w' H. unfold bind. destruct (Hm w w' H) as [Hr Hs].
  destruct (m w) as [r1 w1], (m w') as [r2 w2]. simpl in Hr, Hs. subst r2.
  destruct r1 as [a| |]; [|done|done]. by apply Hk.
Qed.

Lemma store_only_log (e : event) : store_only (log e).
Proof. by intros w w' [Hf Hh]. Qed.

Lemma store_only_truncate_file (p : str) : store_only (truncate_file p).
Proof.
  intros w w' [Hf Hh]. unfold truncate_file. rewrite Hh.
  destruct (open_error (host w') p); [done|]. simpl.
  split; [done|]. split; simpl; congruence.
Qed.

Lemma store_only_writerow (p : str) (r : row) : store_only (writerow p r).
Proof.
  intros w w' [Hf Hh]. unfold writerow. rewrite Hf, Hh. simpl.
  destruct (write_error (host w') _ r); [done|]. simpl.
  split; [done|]. split; simpl; congruence.
Qed.

Lemma store_only_close_file (p : str) : store_only (close_file p).
Proof.
  intros w w' [Hf Hh]. unfold close_file. rewrite Hf, Hh.
  by destruct (close_error (host w') _).
Qed.

Lemma store_only_writerows (p : str) (rs : table) : store_only (writerows p rs).
Proof.
  induction rs as [|r rs IH]; [apply store_only_ret|].
  apply store_only_bind; [apply store_only_writerow|done].
Qed.

Lemma store_only_close_after {A} (p : str) (body : M A) :
  store_only body → store_only (close_after p body).
Proof.
  intros Hbody w w' H. unfold close_after. destruct (Hbody w w' H) as [Hr Hs].
  destruct (body w) as [r1 w1], (body w') as [r2 w2]. simpl in Hr, Hs. subst r2.
  destruct (store_only_close_file p w1 w2 Hs) as [Hr' Hs'].
  destruct (close_file p w1) as [r3 w3], (close_file p w2) as [r4 w4].
  simpl in Hr', Hs'. subst r4.
  destruct r1 as [a| |]; [| |done]; by destruct r3.
Qed.

Lemma store_only_write_output (args : @Args Opts) data labels back :
  store_only (write_output args data labels back).
Proof.
  unfold write_output, open_wt, write_table.
  apply store_only_bind; [|intros _].
  { apply store_only_bind; [apply store_only_log|intros _].
    apply store_only_truncate_file. }
  apply store_only_close_after.
  apply store_only_bind; [apply store_only_lift|intros header].
  apply store_only_bind; [apply store_only_writerow|intros _].
  apply store_only_writerows.
Qed.

(** The columns of a table with at least one row. *)
Lemma zip_star_lookup {A} (rows : list (list A)) (j : nat) (col : list A) :
  Py.zip_star rows !! j = Some col →
  length col = length rows ∧
  ∀ i r, rows !! i = Some r → r !! j = col !! i.
Proof.
  revert col. induction rows as [|r0 rows IH]; intros col; [done|].
  destruct rows as [|r1 rows].
  - simpl. rewrite list_lookup_fmap.
    destruct (r0 !! j) as [x|] eqn:Hx; simpl; [|intros; congruence].
    intros [= <-]. split; [done|]. intros [|i] r; simpl; [|done].
    by intros [= <-].
  - change (Py.zip_star (r0 :: r1 :: rows))
      with (zip_with cons r0 (Py.zip_star (r1 :: rows))).
    remember (r1 :: rows) as rows' eqn:Hrows'. clear Hrows'.
    rewrite lookup_zip_with.
    destruct (r0 !! j) as [x|] eqn:Hx; simpl; [|intros; congruence].
    destruct (Py.zip_star rows' !! j) as [col'|] eqn:Hc; simpl;
      [|intros; congruence].
    intros [= <-]. destruct (IH col' eq_refl) as [Hlen Hrows].
    split; [simpl in *; lia|]. intros [|i] r; simpl.
    + by intros [= <-].
    + apply Hrows.
Qed.

Lemma unpack_columns_inv (data : table) (text labels : list str) :
  unpack_columns data = Ok (text, labels) →
  ∃ header rows,
    data = header :: rows ∧ rows ≠ [] ∧
    length text = length rows ∧ length labels = length rows ∧
    ∀ i r, rows !! i = Some r →
           r !! 0%nat = text !! i ∧ r !! 1%nat = labels !! i.
Proof.
  unfold unpack_columns. rewrite slice_from by lia.
  change (Z.to_nat 1) with 1%nat.
  destruct (Py.zip_star (drop 1 data)) as [|c0 [|c1 [|c2 cs]]] eqn:Hz; try done.
  intros [= <- <-].
  destruct data as [|header rows]; [done|].
  change (drop 1 (header :: rows)) with rows in Hz.
  exists header, rows.
  destruct (zip_star_lookup rows 0 c0) as [H0 H0']; [by rewrite Hz|].
  destruct (zip_star_lookup rows 1 c1) as [H1 H1']; [by rewrite Hz|].
  repeat split; auto. by intros ->.
Qed.

Lemma main_run arrival args w data text labels text' :
  files w !! data_dir args = Some data →
  unpack_columns data = Ok (text, labels) →
  prepare (data_dir args) text = Ok text' →
  main bt arrival args w =
  translate_and_write bt arrival args data labels text' (after_read args w).
Proof.
  intros Hdata Hunpack Hprep.
  unfold main, read_tsv, lookup_file. munfold.
  cbn -[prepare unpack_columns translate_and_write].
  rewrite Hdata, Hunpack. cbn [fst snd]. by rewrite Hprep.
Qed.

Lemma main_ok_inv arrival args w w' :
  main bt arrival args w = (Ok tt, w') →
  ∃ data header rest text labels text' back w2,
    files w !! data_dir args = Some data ∧ data = header :: rest ∧
    unpack_columns data = Ok (text, labels) ∧
    prepare (data_dir args) text = Ok text' ∧
    back_translate bt args arrival text' (after_read args w) = (Ok back, w2) ∧
    length labels = length back ∧
    files w2 = files w ∧
    takes_table (host w) (output_path args) (header :: out_rows back labels)
    = true ∧
    w' = mkWorld (<[output_path args := header :: out_rows back labels]> (files w))
                 (trace w2 ++ [EvWrite (output_path args)]) (host w).
Proof.
  intros Hmain.
  destruct (files w !! data_dir args) as [data|] eqn:Hdata; cycle 1.
  { revert Hmain. unfold main, read_tsv, lookup_file. munfold.
    cbn -[prepare unpack_columns translate_and_write].
    by rewrite Hdata. }
  destruct (unpack_columns data) as [[text labels]| |] eqn:Hunpack; cycle 1.
  1,2: revert Hmain; unfold main, read_tsv, lookup_file; munfold;
       cbn -[prepare unpack_columns translate_and_write];
       by rewrite Hdata, Hunpack.
  destruct (prepare (data_dir args) text) as [text'| |] eqn:Hprep; cycle 1.
  1,2: revert Hmain; unfold main, read_tsv, lookup_file; munfold;
       cbn -[prepare unpack_columns translate_and_write];
       rewrite Hdata, Hunpack; cbn [fst snd]; by rewrite Hprep.
  rewrite (main_run _ _ _ _ _ _ _ Hdata Hunpack Hprep) in Hmain.
  destruct (unpack_columns_inv _ _ _ Hunpack) as (header & rest & -> & _).
  pose proof (quiet_back_translate args arrival text' (after_read args w))
    as [[Hf Hh] _].
  revert Hmain. unfold translate_and_write. munfold.
  destruct (back_translate bt args arrival text' (after_read args w))
    as [[back| |] w2] eqn:Hback; try done.
  simpl in Hf, Hh.
  destruct (Z.eqb_spec (Py.len labels) (Py.len back)) as [Hlen|Hlen];
    munfold; cbn -[write_output]; [|done].
  destruct (takes_table (host w2) (output_path args)
              (header :: out_rows back labels)) eqn:Htakes.
  - rewrite write_output_ok by done. intros [= <-].
    exists (header :: rest), header, rest, text, labels, text', back, w2.
    rewrite <- Hh, <- Hf.
    repeat split; auto. unfold Py.len in Hlen; lia.
  - destruct (write_output_refused args header rest labels back w2 Htakes)
      as (e & fs & _ & _ & ->). done.
Qed.

End DriverFacts.

Section DriverRuns.
Context {Opts : Type}.
Variable bt : @Args Opts → option Z → list str → list str.

Lemma back_translate_single arrival (args : @Args Opts) text w :
  gpus args = None ∨ (∃ d, gpus args = Some [d]) →
  ∃ dev, back_translate bt args arrival text w =
         (Ok (bt args dev text),
          mkWorld (files w) (trace w ++ [EvTranslate dev text]) (host w)).
Proof.
  unfold back_translate, translate. intros [->|[d ->]].
  - by exists None.
  - by exists (Some d).
Qed.

Lemma translate_and_write_trace arrival (args : @Args Opts) header rest labels text w :
  ∃ evs, trace (translate_and_write bt arrival args (header :: rest) labels text w).2
         = trace w ++ evs.
Proof.
  unfold translate_and_write.
  destruct (quiet_back_translate bt args arrival text w) as [_ (evs & Ht & _)].
  munfold.
  destruct (back_translate bt args arrival text w) as [[back| |] w2]; simpl in *;
    [|by eauto|by eauto].
  destruct (Py.len labels =? Py.len back); munfold; cbn -[write_output];
    [|by eauto].
  destruct (takes_table (host w2) (output_path args)
              (header :: out_rows back labels)) eqn:Htakes.
  - rewrite write_output_ok by done. simpl. rewrite Ht, <- app_assoc. eauto.
  - destruct (write_output_refused args header rest labels back w2 Htakes)
      as (e & fs & _ & _ & ->). simpl. rewrite Ht, <- app_assoc. eauto.
Qed.

(** Whatever happens, [main] starts by opening its input. *)
Lemma main_trace arrival (args : @Args Opts) w :
  ∃ evs, trace (main bt arrival args w).2
         = trace w ++ EvRead (data_dir args) :: evs.
Proof.
  destruct (files w !! data_dir args) as [data|] eqn:Hdata; cycle 1.
  { unfold main, read_tsv, lookup_file. munfold.
    cbn -[prepare unpack_columns translate_and_write].
    rewrite Hdata. by exists []. }
  destruct (unpack_columns data) as [[text labels]| |] eqn:Hunpack; cycle 1.
  1,2: unfold main, read_tsv, lookup_file; munfold;
       cbn -[prepare unpack_columns translate_and_write];
       rewrite Hdata, Hunpack; by exists [].
  destruct (prepare (data_dir args) text) as [text'| |] eqn:Hprep; cycle 1.
  1,2: unfold main, read_tsv, lookup_file; munfold;
       cbn -[prepare unpack_columns translate_and_write];
       rewrite Hdata, Hunpack; cbn [fst snd]; rewrite Hprep; by exists [].
  rewrite (main_run bt _ _ _ _ _ _ _ Hdata Hunpack Hprep).
  destruct (unpack_columns_inv _ _ _ Hunpack) as (header & rest & -> & _).
  destruct (translate_and_write_trace arrival args header rest labels text'
              (after_read args w)) as [evs ->].
  exists evs. simpl. by rewrite <- app_assoc.
Qed.

End DriverRuns.


(** ** Sharding over the devices [0 .. n-1] *)

Lemma snoc_loop_map {A B} (f : A → B) (xs : list A) (acc : list B) :
  fold_left (fun acc x => acc ++ [f x]) xs acc = acc ++ map f xs.
Proof.
  revert acc. induction xs as [|x xs IH]; intros acc; simpl.
  - by rewrite app_nil_r.
  - by rewrite IH, <- app_assoc.
Qed.

Lemma split_text_map (text : list str) (g : list Z) :
  split_text text g =
  map (shard text (Py.len g) (Py.floordiv (Py.len text) (Py.len g))) g.
Proof. unfold split_text. by rewrite snoc_loop_map. Qed.

Lemma sum_len_concat {A} (ls : list (list A)) :
  Py.sum_len ls = Py.len (concat ls).
Proof.
  unfold Py.len. induction ls as [|l ls IH]; simpl; [done|].
  unfold Py.len. rewrite IH, length_app. lia.
Qed.

Section Sharding.
Variable text : list str.
Variable n : nat.
Hypothesis Hn : (2 ≤ n)%nat.

Let sp : Z := Py.floordiv (Py.len text) (Z.of_nat n).

Lemma split_point_bounds : 0 ≤ sp ∧ Z.of_nat n * sp ≤ Py.len text.
Proof.
  unfold sp, Py.floordiv, Py.len. split.
  - apply Z.div_pos; lia.
  - apply Z.mul_div_le. lia.
Qed.

Lemma shard_inner (i : Z) :
  0 ≤ i < Z.of_nat n - 1 →
  shard text (Z.of_nat n) sp i
  = take (Z.to_nat sp) (drop (Z.to_nat (i * sp)) text).
Proof.
  intros Hi. destruct split_point_bounds as [H0 Hle]. unfold shard.
  destruct (Z.eqb_spec i (Z.of_nat n - 1)); [lia|].
  rewrite slice_between by nia. f_equal. f_equal. lia.
Qed.

Lemma shard_last :
  shard text (Z.of_nat n) sp (Z.of_nat n - 1)
  = drop (Z.to_nat ((Z.of_nat n - 1) * sp)) text.
Proof.
  destruct split_point_bounds as [H0 Hle]. unfold shard.
  rewrite Z.eqb_refl. rewrite slice_between, slice_from by nia.
  replace (Z.to_nat ((Z.of_nat n - 1 + 1) * sp))
    with (Z.to_nat ((Z.of_nat n - 1) * sp) + Z.to_nat sp)%nat by nia.
  replace (Z.to_nat ((Z.of_nat n - 1 + 1) * sp - (Z.of_nat n - 1) * sp))
    with (Z.to_nat sp) by nia.
  rewrite <- drop_drop. apply take_drop.
Qed.

Lemma shards_prefix (k : nat) :
  (k < n)%nat →
  concat (map (shard text (Z.of_nat n) sp) (seqZ 0 (Z.of_nat k)))
  = take (Z.to_nat (Z.of_nat k * sp)) text.
Proof.
  destruct split_point_bounds as [H0 Hle].
  induction k as [|k IH]; intros Hk; [done|].
  rewrite seqZ_S, map_app, concat_app, IH by lia. simpl.
  rewrite app_nil_r, shard_inner by lia.
  rewrite take_take_drop. f_equal. nia.
Qed.

Lemma split_text_range :
  let g := seqZ 0 (Z.of_nat n) in
  length (split_text text g) = n ∧
  concat (split_text text g) = text ∧
  Py.sum_len (split_text text g) = Py.len text ∧
  (∀ i : nat, (i < n - 1)%nat →
     length <$> split_text text g !! i = Some (Z.to_nat sp)) ∧
  length <$> split_text text g !! (n - 1)%nat
    = Some (Z.to_nat (sp + Py.len text `mod` Z.of_nat n)).
Proof.
  destruct split_point_bounds as [H0 Hle].
  intros g. rewrite split_text_map.
  assert (Hg : Py.len g = Z.of_nat n).
  { unfold g, Py.len. rewrite length_seqZ. lia. }
  rewrite Hg. fold sp.
  assert (Hcat : concat (map (shard text (Z.of_nat n) sp) g) = text).
  { unfold g. replace n with (S (n - 1)) at 2 by lia.
    rewrite seqZ_S, map_app, concat_app, shards_prefix by lia. simpl.
    rewrite app_nil_r. replace (Z.of_nat (n - 1)) with (Z.of_nat n - 1) by lia.
    rewrite Z.add_0_l, shard_last. apply take_drop. }
  split; [|split; [done|split; [|split]]].
  - rewrite length_map. unfold g. rewrite length_seqZ. lia.
  - by rewrite sum_len_concat, Hcat.
  - intros i Hi. rewrite list_lookup_fmap. unfold g.
    rewrite lookup_seqZ_lt by lia. simpl fmap. rewrite Z.add_0_l.
    rewrite shard_inner by lia.
    f_equal. rewrite length_take, length_drop.
    unfold Py.len in Hle. nia.
  - rewrite list_lookup_fmap. unfold g.
    rewrite lookup_seqZ_lt by lia. simpl fmap. rewrite Z.add_0_l.
    replace (Z.of_nat (n - 1)) with (Z.of_nat n - 1) by lia.
    rewrite shard_last, length_drop. f_equal.
    pose proof (Z.div_mod (Py.len text) (Z.of_nat n) ltac:(lia)) as Hdm.
    fold (Py.floordiv (Py.len text) (Z.of_nat n)) in Hdm. fold sp in Hdm.
    unfold Py.len in *. nia.
Qed.

End Sharding.

(** ** The fan-out on the devices [0 .. n-1] *)

Lemma concat_length_perm {A} (f : nat → list A) (l l' : list nat) :
  l ≡ₚ l' → length (concat (map f l)) = length (concat (map f l')).
Proof.
  induction 1 as [|k l l' _ IH|k k' l|l l' l'' _ IH1 _ IH2]; simpl.
  - done.
  - rewrite !length_app. lia.
  - rewrite !length_app. lia.
  - congruence.
Qed.

Lemma lookup_every {A} (results : list (list A)) :
  map (fun k => default [] (results !! k)) (seq 0 (length results)) = results.
Proof.
  apply list_eq. intros i. rewrite list_lookup_fmap.
  destruct (results !! i) as [r|] eqn:Hr.
  - rewrite lookup_seq_lt by (by apply lookup_lt_Some in Hr). simpl.
    by rewrite Hr.
  - rewrite lookup_seq_ge by (by apply lookup_ge_None in Hr). done.
Qed.

Lemma concat_length_of_lengths {A B} (xs : list (list A)) (ys : list (list B)) :
  map length xs = map length ys → length (concat xs) = length (concat ys).
Proof.
  revert ys. induction xs as [|x xs IH]; intros [|y ys]; simpl; try done.
  intros [= Hxy Hrest]. rewrite !length_app, Hxy. f_equal. by apply IH.
Qed.

Section FanOut.
Context {Opts : Type}.
Variable bt : @Args Opts → option Z → list str → list str.
Hypothesis Hbt : ∀ a d doc, length (bt a d doc) = length doc.

Lemma start_workers_spec (args : @Args Opts) shards i w :
  ∃ results w',
    start_workers bt args i shards w = (Ok results, w') ∧
    map length results = map length shards.
Proof.
  revert i w. induction shards as [|doc shards IH]; intros i w; simpl.
  - by exists [], w.
  - unfold multi_translate, translate. munfold. simpl.
    destruct (IH (i + 1) (mkWorld (files w)
                            (trace w ++ [EvTranslate (Some i) doc]) (host w)))
      as (rs & w' & -> & Hlen).
    exists (bt args (Some i) doc :: rs), w'. split; [done|]. simpl.
    by rewrite Hbt, Hlen.
Qed.

Lemma back_translate_completes arrival (args : @Args Opts) text w :
  gpus args = None ∨ (∃ d, gpus args = Some [d]) ∨
  (∃ n : nat, (2 ≤ n)%nat ∧ gpus args = Some (seqZ 0 (Z.of_nat n)) ∧
              arrival ≡ₚ seq 0 n) →
  ∃ back w2, back_translate bt args arrival text w = (Ok back, w2) ∧
             length back = length text.
Proof.
  intros [Hg|[Hg|(n & Hn & Hg & Harr)]].
  - destruct (back_translate_single bt arrival args text w (or_introl Hg))
      as [dev ->]. eauto.
  - destruct (back_translate_single bt arrival args text w (or_intror Hg))
      as [dev ->]. eauto.
  - unfold back_translate. rewrite Hg.
    assert (Hlen : Py.len (seqZ 0 (Z.of_nat n)) = Z.of_nat n).
    { unfold Py.len. rewrite length_seqZ. lia. }
    destruct (Z.ltb_spec 1 (Py.len (seqZ 0 (Z.of_nat n)))); [|lia].
    destruct (split_text_range text n Hn) as (Hcount & Hcat & Hsum & _).
    cbv zeta in Hcount, Hcat, Hsum. rewrite Hsum, Z.eqb_refl.
    unfold fan_out. munfold. cbn -[split_text start_workers].
    destruct (start_workers_spec args (split_text text (seqZ 0 (Z.of_nat n))) 0 w)
      as (results & w' & -> & Hres).
    eexists _, w'. split; [done|].
    assert (Hn' : length results = n).
    { apply (f_equal length) in Hres. rewrite !length_map in Hres. congruence. }
    rewrite (concat_length_perm _ _ _ Harr), <- Hn', lookup_every.
    rewrite (concat_length_of_lengths _ _ Hres). by rewrite Hcat.
Qed.

End FanOut.

(** ** [replace], one occurrence at a time *)

Lemma replace_go_skip (old new : str) (k : nat) (s : str) :
  Py.replace_go old new k s = Py.replace_go old new 0 (drop k s).
Proof.
  revert k. induction s as [|c s IH]; intros [|k]; try done.
  cbn [Py.replace_go drop]. apply IH.
Qed.

Lemma replace_nil (old new : str) : Py.replace old new [] = [].
Proof. done. Qed.

Lemma replace_match (old new s : str) :
  old ≠ [] → Py.startswith old s = true →
  Py.replace old new s = new ++ Py.replace old new (drop (length old) s).
Proof.
  intros Hold H. unfold Py.replace. destruct s as [|c s].
  - destruct old; done.
  - cbn [Py.replace_go]. rewrite H, replace_go_skip.
    destruct old; [done|]. done.
Qed.

Lemma replace_copy (old new : str) (c : N) (s : str) :
  Py.startswith old (c :: s) = false →
  Py.replace old new (c :: s) = c :: Py.replace old new s.
Proof. intros H. unfold Py.replace. cbn [Py.replace_go]. by rewrite H. Qed.

Lemma contains_cons (sub : str) (c : N) (s : str) :
  Py.contains sub (c :: s) = Py.startswith sub (c :: s) || Py.contains sub s.
Proof. done. Qed.

Lemma contains_nil (sub : str) : Py.contains sub [] = Py.startswith sub [].
Proof. simpl. apply orb_false_r. Qed.

Lemma contains_later (sub t s : str) :
  Py.contains sub s = true → Py.contains sub (t ++ s) = true.
Proof.
  intros H. induction t as [|c t IH]; [done|].
  cbn [app]. rewrite contains_cons, IH. apply orb_true_r.
Qed.

Lemma contains_drop (sub s : str) (k : nat) :
  Py.contains sub (drop k s) = true → Py.contains sub s = true.
Proof.
  intros H. rewrite <- (take_drop k s). by apply contains_later.
Qed.

Lemma startswith_head (c : N) (w s : str) (d : N) :
  Py.startswith (c :: w) (d :: s) = true → c = d.
Proof. simpl. intros [H _]%andb_true_iff. by apply N.eqb_eq. Qed.

(** An occurrence that begins with none of the characters of [t] is not
    lost when [t] is taken from the front. *)
Lemma contains_past (c : N) (w t s : str) :
  c ∉ t → Py.contains (c :: w) (t ++ s) = true →
  Py.contains (c :: w) s = true.
Proof.
  induction t as [|d t IH]; [done|]. intros Hc.
  cbn [app]. rewrite contains_cons.
  intros [H|H]%orb_true_iff.
  - apply startswith_head in H. subst d. exfalso. apply Hc. left.
  - apply IH; [|done]. intros Hin. apply Hc. by right.
Qed.

Lemma startswith_app_inv (a b s : str) :
  Py.startswith (a ++ b) s = true →
  Py.startswith a s = true ∧ Py.startswith b (drop (length a) s) = true.
Proof.
  revert s. induction a as [|x a IH]; intros s; [done|].
  destruct s as [|y s]; [done|]. cbn [app Py.startswith length drop].
  intros [-> H]%andb_true_iff. by apply IH.
Qed.

Lemma startswith_app_intro (a b s : str) :
  Py.startswith a s = true → Py.startswith b (drop (length a) s) = true →
  Py.startswith (a ++ b) s = true.
Proof.
  revert s. induction a as [|x a IH]; intros s; [done|].
  destruct s as [|y s]; [done|]. cbn [app Py.startswith length drop].
  intros [-> H]%andb_true_iff Hb. by apply IH.
Qed.

Lemma splice_cons (gap : str) (k : nat) (ks : list nat) (c d : N)
    (pat : str) :
  splice gap (k :: ks) (c :: d :: pat)
  = c :: copies k gap ++ splice gap ks (d :: pat).
Proof. done. Qed.

Lemma splice_nil (gap : str) (pat : str) : splice gap [] pat = pat.
Proof. by destruct pat as [|c [|d pat]]. Qed.

Lemma splice_one (gap : str) (ks : list nat) (c : N) :
  splice gap ks [c] = [c].
Proof. by destruct ks. Qed.

Lemma splice_head (gap : str) (ks : list nat) (c : N) (pat : str) :
  ∃ w, splice gap ks (c :: pat) = c :: w.
Proof.
  destruct pat as [|d pat]; [rewrite splice_one; eauto|].
  destruct ks as [|k ks]; [rewrite splice_nil; eauto|].
  rewrite splice_cons. eauto.
Qed.

(** ** Deleting every [old] *)

Section Deletion.
Variables (o1 o2 : N) (tl : str).
Let old : str := o1 :: o2 :: tl.

Lemma startswith_copies (k : nat) (w s : str) :
  Py.startswith (copies k old ++ w) s = true →
  Py.replace old [] s = Py.replace old [] (drop (k * length old) s) ∧
  Py.startswith w (drop (k * length old) s) = true.
Proof.
  revert s. induction k as [|k IH]; intros s; [done|].
  unfold copies. cbn [replicate concat]. rewrite <- app_assoc.
  intros [Hold H]%startswith_app_inv.
  apply IH in H as [Hdel H].
  rewrite drop_drop in Hdel, H.
  replace (S k * length old)%nat with (length old + k * length old)%nat by lia.
  split; [|done]. rewrite replace_match by done. rewrite app_nil_l. exact Hdel.
Qed.

(** What is found after the deletion was there before, with occurrences of
    [old] between its characters. *)
Lemma deleted_starts (pat s : str) :
  pat ≠ [] → Py.startswith pat (Py.replace old [] s) = true →
  ∃ k ks, Py.startswith (copies k old ++ splice old ks pat) s = true.
Proof.
  remember (length s) as n eqn:Hn. revert pat s Hn.
  induction n as [n IH] using lt_wf_ind. intros pat s -> Hpat.
  destruct s as [|c s].
  { rewrite replace_nil. by destruct pat. }
  destruct (Py.startswith old (c :: s)) eqn:Hstart.
  - rewrite replace_match by done. rewrite app_nil_l. intros H.
    pose proof (startswith_inv _ _ Hstart) as Hs.
    assert (Hlt : (length (drop (length old) (c :: s)) < length (c :: s))%nat)
      by (rewrite length_drop; simpl; lia).
    destruct (IH _ Hlt pat _ eq_refl Hpat H) as (k & ks & Hk).
    exists (S k), ks. unfold copies. cbn [replicate concat].
    rewrite <- app_assoc. by apply startswith_app_intro.
  - rewrite replace_copy by done. destruct pat as [|p pat]; [done|].
    cbn [Py.startswith]. intros [Hp H]%andb_true_iff.
    apply N.eqb_eq in Hp as ->.
    destruct pat as [|d pat].
    { exists 0%nat, []. simpl. by rewrite N.eqb_refl. }
    assert (Hlt : (length s < length (c :: s))%nat) by (simpl; lia).
    destruct (IH _ Hlt (d :: pat) s eq_refl ltac:(done) H) as (k & ks & Hk).
    exists 0%nat, (k :: ks). rewrite splice_cons. cbn [copies replicate concat app].
    cbn [Py.startswith]. by rewrite N.eqb_refl.
Qed.

Lemma deleted_contains (pat s : str) :
  pat ≠ [] → Py.contains pat (Py.replace old [] s) = true →
  ∃ ks, Py.contains (splice old ks pat) s = true.
Proof.
  intros Hpat.
  remember (length s) as n eqn:Hn. revert s Hn.
  induction n as [n IH] using lt_wf_ind. intros s ->.
  destruct s as [|c s].
  { rewrite replace_nil, contains_nil. by destruct pat. }
  destruct (Py.startswith old (c :: s)) eqn:Hstart.
  - rewrite replace_match by done. rewrite app_nil_l. intros H.
    assert (Hlt : (length (drop (length old) (c :: s)) < length (c :: s))%nat)
      by (rewrite length_drop; simpl; lia).
    destruct (IH _ Hlt _ eq_refl H) as (ks & Hks).
    exists ks. by apply contains_drop in Hks.
  - rewrite replace_copy by done. rewrite contains_cons.
    intros [H|H]%orb_true_iff.
    + rewrite <- (replace_copy old []) in H by done.
      destruct (deleted_starts pat (c :: s) Hpat H) as (k & ks & Hk).
      exists ks. apply startswith_app_inv in Hk as [_ Hk].
      apply contains_startswith in Hk. by apply contains_drop in Hk.
    + assert (Hlt : (length s < length (c :: s))%nat) by (simpl; lia).
      destruct (IH _ Hlt _ eq_refl H) as (ks & Hks).
      exists ks. rewrite contains_cons, Hks. apply orb_true_r.
Qed.

(** The other way round, for a pattern that no occurrence of [old] can
    overlap: its first character is none of the later ones of [old], its
    last is not the first of [old], and the second of [old] is neither its
    first nor in the pattern. *)
Hypothesis Hold12 : o1 ≠ o2.

Lemma spliced_starts (pat : str) (ks : list nat) (s : str) :
  pat ≠ [] → o2 ∉ pat → last pat ≠ Some o1 →
  Py.startswith (splice old ks pat) s = true →
  Py.startswith pat (Py.replace old [] s) = true.
Proof.
  revert ks s. induction pat as [|c pat IH]; intros ks s Hpat Ho2 Hlast;
    [done|].
  destruct pat as [|d pat].
  - rewrite splice_one. destruct s as [|x s]; [done|].
    intros Hc. apply startswith_head in Hc as <-.
    rewrite replace_copy.
    + simpl. by rewrite N.eqb_refl.
    + simpl. destruct (N.eqb_spec o1 c) as [->|]; [|done]. done.
  - assert (Ho2' : o2 ∉ d :: pat) by (intros Hin; apply Ho2; by right).
    assert (Hlast' : last (d :: pat) ≠ Some o1) by done.
    assert (Hd : o2 ≠ d) by (intros ->; apply Ho2; right; left).
    destruct ks as [|k ks].
    + rewrite splice_nil. destruct s as [|x s]; [done|].
      cbn [Py.startswith]. intros [Hc H]%andb_true_iff.
      apply N.eqb_eq in Hc as <-.
      rewrite replace_copy.
      * cbn [Py.startswith]. rewrite N.eqb_refl. simpl andb.
        apply (IH []); try done. by rewrite splice_nil.
      * destruct s as [|y s]; [done|]. apply startswith_head in H as <-.
        simpl. destruct (N.eqb_spec o1 c); [|done].
        destruct (N.eqb_spec o2 d); done.
    + rewrite splice_cons. destruct s as [|x s]; [done|].
      cbn [Py.startswith]. intros [Hc H]%andb_true_iff.
      apply N.eqb_eq in Hc as <-.
      rewrite replace_copy.
      * cbn [Py.startswith]. rewrite N.eqb_refl. simpl andb.
        apply startswith_copies in H as [-> H]. by apply (IH ks).
      * destruct k as [|k].
        -- cbn [copies replicate concat app] in H.
           destruct (splice_head old ks d pat) as [w Hw]. rewrite Hw in H.
           destruct s as [|y s]; [done|]. apply startswith_head in H as <-.
           simpl. destruct (N.eqb_spec o1 c); [|done].
           destruct (N.eqb_spec o2 d); done.
        -- unfold copies in H. cbn [replicate concat] in H.
           destruct s as [|y s]; [done|]. unfold old in H at 1.
           cbn [app] in H. apply startswith_head in H as <-.
           simpl. destruct (N.eqb_spec o1 c); [|done].
           destruct (N.eqb_spec o2 o1); [congruence|done].
Qed.

Lemma spliced_contains (c : N) (pat : str) (ks : list nat) (s : str) :
  c ∉ o2 :: tl → o2 ∉ c :: pat → last (c :: pat) ≠ Some o1 →
  Py.contains (splice old ks (c :: pat)) s = true →
  Py.contains (c :: pat) (Py.replace old [] s) = true.
Proof.
  intros Hc Ho2 Hlast.
  destruct (splice_head old ks c pat) as [w Hw].
  remember (length s) as n eqn:Hn. revert s Hn.
  induction n as [n IH] using lt_wf_ind. intros s ->.
  destruct s as [|x s].
  { rewrite contains_nil, Hw. done. }
  destruct (Py.startswith old (x :: s)) eqn:Hstart.
  - rewrite replace_match by done. rewrite app_nil_l.
    pose proof (startswith_inv _ _ Hstart) as Hs.
    intros H. apply (IH (length (drop (length old) (x :: s))));
      [rewrite length_drop; simpl; lia|done|].
    rewrite Hs in H. unfold old in H at 2. cbn [app] in H.
    rewrite contains_cons in H. apply orb_true_iff in H as [H|H].
    + exfalso. rewrite Hw in H. pose proof (startswith_head _ _ _ _ H) as Hco.
      cbn [Py.startswith] in H. apply andb_true_iff in H as [_ H].
      destruct pat as [|d pat].
      * apply Hlast. simpl. by rewrite Hco.
      * destruct ks as [|[|k] ks].
        -- rewrite splice_nil in Hw. injection Hw as <-.
           apply startswith_head in H as ->. apply Ho2. right. left.
        -- rewrite splice_cons in Hw. cbn [copies replicate concat app] in Hw.
           injection Hw as <-.
           destruct (splice_head old ks d pat) as [w' Hw']. rewrite Hw' in H.
           apply startswith_head in H as ->. apply Ho2. right. left.
        -- rewrite splice_cons in Hw. unfold copies in Hw.
           cbn [replicate concat] in Hw. unfold old in Hw at 1.
           cbn [app] in Hw. injection Hw as <-.
           apply startswith_head in H. done.
    + rewrite Hw in H.
      change (o2 :: tl ++ ?t) with ((o2 :: tl) ++ t) in H.
      apply contains_past in H; [by rewrite <- Hw in H|done].
  - rewrite replace_copy by done. rewrite !contains_cons.
    intros [H|H]%orb_true_iff.
    + apply spliced_starts in H; try done.
      rewrite replace_copy in H by done. by rewrite H.
    + rewrite (IH (length s)); [apply orb_true_r|simpl; lia|done|done].
Qed.

End Deletion.

(** ** Replacing every [old] by one character *)

Section OneCharacter.
Variables (o1 o2 : N) (x : N).
Let old : str := [o1; o2].

Lemma replaced_starts (pat s : str) :
  Py.startswith pat (Py.replace old [x] s) = true →
  ∃ w, w ∈ unreplaced old x pat ∧ Py.startswith w s = true.
Proof.
  revert s. induction pat as [|p pat IH]; intros s.
  { exists []. split; [by left|done]. }
  destruct s as [|c s]; [done|].
  destruct (Py.startswith old (c :: s)) eqn:Hstart.
  - rewrite replace_match by done. cbn [app Py.startswith].
    intros [Hp H]%andb_true_iff. apply N.eqb_eq in Hp as ->.
    apply IH in H as (w & Hw & H).
    exists (old ++ w). split.
    + cbn [unreplaced]. rewrite N.eqb_refl. apply elem_of_app. right.
      by apply list_elem_of_fmap_2.
    + by apply startswith_app_intro.
  - rewrite replace_copy by done. cbn [Py.startswith].
    intros [Hp H]%andb_true_iff. apply N.eqb_eq in Hp as ->.
    apply IH in H as (w & Hw & H).
    exists (c :: w). split.
    + cbn [unreplaced]. apply elem_of_app. left. by apply list_elem_of_fmap_2.
    + cbn [Py.startswith]. by rewrite N.eqb_refl.
Qed.

Lemma replaced_contains (pat s : str) :
  Py.contains pat (Py.replace old [x] s) = true →
  ∃ w, w ∈ unreplaced old x pat ∧ Py.contains w s = true.
Proof.
  remember (length s) as n eqn:Hn. revert s Hn.
  induction n as [n IH] using lt_wf_ind. intros s ->.
  destruct s as [|c s].
  { rewrite replace_nil, contains_nil. intros H.
    destruct pat; [|done]. exists []. split; [by left|done]. }
  intros H.
  assert (Hcase : Py.startswith pat (Py.replace old [x] (c :: s)) = true ∨
                  ∃ k, (0 < k)%nat ∧
                       Py.contains pat (Py.replace old [x] (drop k (c :: s)))
                       = true).
  { destruct (Py.startswith old (c :: s)) eqn:Hstart.
    - rewrite replace_match in H |- * by done. cbn [app] in H |- *.
      rewrite contains_cons in H. apply orb_true_iff in H as [H|H]; [by left|].
      right. exists (length old). split; [simpl; lia|done].
    - rewrite replace_copy in H |- * by done.
      rewrite contains_cons in H. apply orb_true_iff in H as [H|H]; [by left|].
      right. exists 1%nat. split; [lia|done]. }
  destruct Hcase as [Hs|(k & Hk & Hc)].
  - apply replaced_starts in Hs as (w & Hw & Hs).
    exists w. split; [done|]. by apply contains_startswith.
  - assert (Hlt : (length (drop k (c :: s)) < length (c :: s))%nat)
      by (rewrite length_drop; simpl; lia).
    destruct (IH _ Hlt _ eq_refl Hc) as (w & Hw & Hin).
    exists w. split; [done|]. by apply contains_drop in Hin.
Qed.

(** The other way round, for a pattern without the characters of [old]. *)
Hypothesis Hold12 : o1 ≠ o2.

Lemma unreplaced_starts (pat w s : str) :
  o1 ∉ pat → w ∈ unreplaced old x pat → Py.startswith w s = true →
  Py.startswith pat (Py.replace old [x] s) = true.
Proof.
  revert w s. induction pat as [|p pat IH]; intros w s Ho1; [done|].
  assert (Ho1' : o1 ∉ pat) by (intros Hin; apply Ho1; by right).
  assert (Hp : o1 ≠ p) by (intros ->; apply Ho1; left).
  cbn [unreplaced]. intros [Hw|Hw]%elem_of_app.
  - apply list_elem_of_fmap in Hw as (w' & -> & Hw').
    destruct s as [|c s]; [done|]. cbn [Py.startswith].
    intros [Hc H]%andb_true_iff. apply N.eqb_eq in Hc as <-.
    rewrite replace_copy.
    + cbn [Py.startswith]. rewrite N.eqb_refl. simpl andb. by apply (IH w').
    + simpl. by destruct (N.eqb_spec o1 p).
  - destruct (N.eqb_spec p x) as [->|]; [|by apply elem_of_nil in Hw].
    apply list_elem_of_fmap in Hw as (w' & -> & Hw').
    intros [Hs H]%startswith_app_inv.
    rewrite replace_match by done. cbn [app Py.startswith].
    rewrite N.eqb_refl. simpl andb. by apply (IH w').
Qed.

Lemma unreplaced_head (p : N) (pat w : str) :
  w ∈ unreplaced old x (p :: pat) → ∃ w', w = p :: w' ∨ w = o1 :: w'.
Proof.
  cbn [unreplaced]. intros [Hw|Hw]%elem_of_app.
  - apply list_elem_of_fmap in Hw as (w' & -> & _). eauto.
  - destruct (N.eqb p x); [|by apply elem_of_nil in Hw].
    apply list_elem_of_fmap in Hw as (w' & -> & _). eauto.
Qed.

Lemma unreplaced_contains (p : N) (pat w s : str) :
  o1 ∉ p :: pat → p ≠ o2 → w ∈ unreplaced old x (p :: pat) →
  Py.contains w s = true →
  Py.contains (p :: pat) (Py.replace old [x] s) = true.
Proof.
  intros Ho1 Hp Hw.
  remember (length s) as n eqn:Hn. revert s Hn.
  induction n as [n IH] using lt_wf_ind. intros s ->.
  destruct s as [|c s].
  { rewrite contains_nil. intros H.
    destruct (unreplaced_head _ _ _ Hw) as [w' [->| ->]]; done. }
  rewrite contains_cons. intros [H|H]%orb_true_iff.
  { apply contains_startswith. by apply (unreplaced_starts _ w). }
  destruct (Py.startswith old (c :: s)) eqn:Hstart.
  - rewrite replace_match by done. cbn [app]. rewrite contains_cons.
    apply orb_true_iff. right.
    pose proof (startswith_inv _ _ Hstart) as Hs.
    apply (IH (length (drop (length old) (c :: s))));
      [rewrite length_drop; simpl; lia|done|].
    injection Hs as -> Hs. rewrite Hs in H. cbn [app] in H.
    rewrite contains_cons in H. apply orb_true_iff in H as [H|H]; [|done].
    exfalso. destruct (unreplaced_head _ _ _ Hw) as [w' [->| ->]];
      apply startswith_head in H; congruence.
  - rewrite replace_copy by done. rewrite contains_cons.
    apply orb_true_iff. right. by apply (IH (length s)); [simpl; lia| |].
Qed.

End OneCharacter.

(** ** The two replacements after the loop *)

Lemma unreplaced_A_HREF :
  unreplaced BACKSLASH_N 32 A_HREF = [A_HREF; A_NL_HREF].
Proof. vm_compute. reflexivity. Qed.

Lemma href_after_newlines (u : str) :
  Py.contains A_HREF (Py.replace BACKSLASH_N SPACE u) = true ↔
  Py.contains A_HREF u = true ∨ Py.contains A_NL_HREF u = true.
Proof.
  change BACKSLASH_N with [92%N; 110%N]. change SPACE with [32%N]. split.
  - intros (w & Hw & H)%replaced_contains.
    change [92%N; 110%N] with BACKSLASH_N in Hw.
    rewrite unreplaced_A_HREF in Hw.
    apply elem_of_cons in Hw as [->|Hw]; [by left|].
    apply list_elem_of_singleton in Hw as ->. by right.
  - intros H.
    assert (Hw : ∃ w, w ∈ unreplaced [92%N; 110%N] 32 A_HREF ∧
                      Py.contains w u = true).
    { change [92%N; 110%N] with BACKSLASH_N. rewrite unreplaced_A_HREF.
      destruct H as [H|H]; [exists A_HREF|exists A_NL_HREF]; split; try done.
      - left.
      - right. left. }
    destruct Hw as (w & Hw & Hin).
    apply (unreplaced_contains 92 110 32 ltac:(done) 60
             (lit "a href=") w u); try done.
    intros Hbad. vm_compute in Hbad.
    repeat (apply elem_of_cons in Hbad as [Hbad|Hbad]; [done|]).
    by apply elem_of_nil in Hbad.
Qed.

Lemma not_in_explicit (c : N) (l : str) :
  forallb (fun d => negb (N.eqb c d)) l = true → c ∉ l.
Proof.
  rewrite forallb_forall. intros H Hin. apply list_elem_of_In, H in Hin.
  by rewrite N.eqb_refl in Hin.
Qed.

(** The opening tag, and the one with backslash-n for its space, are
    patterns that no [</a>] can overlap. *)
Lemma href_after_deletion (s : str) :
  Py.contains A_HREF (Py.replace A_CLOSE [] s) = true ↔
  ∃ ks, Py.contains (splice A_CLOSE ks A_HREF) s = true.
Proof.
  change A_CLOSE with (60%N :: 47%N :: lit "a>"). split.
  - by apply deleted_contains.
  - intros [ks H].
    apply (spliced_contains 60 47 (lit "a>") ltac:(done) 60 (lit "a href=") ks);
      try done; by apply not_in_explicit.
Qed.

Lemma nl_href_after_deletion (s : str) :
  Py.contains A_NL_HREF (Py.replace A_CLOSE [] s) = true ↔
  ∃ ks, Py.contains (splice A_CLOSE ks A_NL_HREF) s = true.
Proof.
  change A_CLOSE with (60%N :: 47%N :: lit "a>"). split.
  - by apply deleted_contains.
  - intros [ks H].
    apply (spliced_contains 60 47 (lit "a>") ltac:(done) 60 (lit "a\nhref=") ks);
      try done; by apply not_in_explicit.
Qed.

(** * The claims *)

(** C1 (the code departs from it).  The sharding loop slices by the value of
    each requested device index, not by its position in the list.  Asked for
    devices 1 and 2 on four texts it builds the shards [c, d] and nothing:
    two texts are left out, the shard lengths sum to 2 instead of 4, and
    with three devices present the script stops on the assertion of line 91,
    its input read and nothing translated.  Asked for devices 1 and 0 the
    shards come out of order, and for 0 and 0 the first half is taken twice
    while the assertion passes.  ([split_text_range] shows the claim on the
    lists 0, 1, ..., n-1.) *)
Theorem sharding_by_device_id_misses_texts :
  split_text four_texts [1; 2] = [[lit "c"; lit "d"]; []] ∧
  Py.sum_len (split_text four_texts [1; 2]) = 2 ∧
  Py.len four_texts = 4 ∧
  script echo_model 3 [0; 1]%nat (sample_args train_tsv (Some [1; 2]))
         four_world
  = (Raise AssertionError,
     after_read (sample_args train_tsv (Some [1; 2])) four_world) ∧
  split_text four_texts [1; 0] = [[lit "c"; lit "d"]; [lit "a"; lit "b"]] ∧
  split_text four_texts [0; 0] = [[lit "a"; lit "b"]; [lit "a"; lit "b"]] ∧
  Py.sum_len (split_text four_texts [0; 0]) = Py.len four_texts.
Proof. vm_compute. repeat split; reflexivity. Qed.

Section DriverClaims.
Context {Opts : Type}.
Variable bt : @Args Opts → option Z → list str → list str.

(** C2.  Whenever [main] completes, the label column of the data rows of the
    file it wrote is the label column of the data rows of the file it read,
    row by row; the text column holds the back-translated documents. *)
Theorem labels_preserved arrival (args : @Args Opts) w w' :
  main bt arrival args w = (Ok tt, w') →
  ∃ data out text labels text' back w2,
    files w !! data_dir args = Some data ∧
    files w' !! output_path args = Some out ∧
    column 1 (tail out) = column 1 (tail data) ∧
    unpack_columns data = Ok (text, labels) ∧
    prepare (data_dir args) text = Ok text' ∧
    back_translate bt args arrival text' (after_read args w) = (Ok back, w2) ∧
    column 0 (tail out) = map Some back.
Proof.
  intros (data & header & rest & text & labels & text' & back & w2 &
          Hdata & -> & Hun & Hprep & Hback & Hlen & Hf & _ & ->)%main_ok_inv.
  exists (header :: rest), (header :: out_rows back labels),
    text, labels, text', back, w2.
  split; [done|]. split; [simpl; by rewrite lookup_insert_eq|]. simpl.
  destruct (unpack_columns_inv _ _ _ Hun)
    as (h & rows & [= <- <-] & _ & _ & Hl & Hr).
  destruct (column_out_rows back labels Hlen) as [-> ->].
  repeat split; try done.
  symmetry. apply column_of_rows; [done|]. intros i r Hi. by apply Hr.
Qed.

(** C3.  With a model that answers one text per text, whenever [main]
    completes, the file it wrote has as many data rows as the file it
    read. *)
Theorem row_count_preserved arrival (args : @Args Opts) w data :
  (∀ a d doc, length (bt a d doc) = length doc) →
  files w !! data_dir args = Some data →
  ∀ w', main bt arrival args w = (Ok tt, w') →
        ∃ out, files w' !! output_path args = Some out ∧
               length (tail out) = length (tail data).
Proof.
  intros Hbt Hdata.
  intros w' (data' & header & rest & text & labels & text' & back & w2 &
        Hdata' & -> & Hun & Hprep & Hback & Hlen & Hf & _ & ->)%main_ok_inv.
  rewrite Hdata in Hdata'. injection Hdata' as ->.
  exists (header :: out_rows back labels).
  split; [simpl; by rewrite lookup_insert_eq|]. simpl.
  destruct (unpack_columns_inv _ _ _ Hun)
    as (h & rows & [= <- <-] & _ & _ & Hl & _).
  rewrite out_rows_length; done.
Qed.

(** C4.  Whenever [main] completes, the first row written is the header row
    read, field for field, and every later row is a two-field row made of a
    back-translated document and the label of the same position. *)
Theorem output_shape arrival (args : @Args Opts) w w' :
  main bt arrival args w = (Ok tt, w') →
  ∃ data out header text labels text' back w2,
    files w !! data_dir args = Some data ∧
    files w' !! output_path args = Some out ∧
    data !! 0%nat = Some header ∧ out !! 0%nat = Some header ∧
    unpack_columns data = Ok (text, labels) ∧
    prepare (data_dir args) text = Ok text' ∧
    back_translate bt args arrival text' (after_read args w) = (Ok back, w2) ∧
    length back = length labels ∧
    tail out = zip_with (fun line label => [line; label]) back labels ∧
    Forall (fun r => length r = 2%nat) (tail out).
Proof.
  intros (data & header & rest & text & labels & text' & back & w2 &
          Hdata & -> & Hun & Hprep & Hback & Hlen & Hf & _ & ->)%main_ok_inv.
  exists (header :: rest), (header :: out_rows back labels), header,
    text, labels, text', back, w2.
  repeat split; try done.
  - simpl. by rewrite lookup_insert_eq.
  - simpl. unfold out_rows. clear. revert labels.
    induction back as [|b back IH]; intros [|l labels]; simpl; constructor; auto.
Qed.

(** C6.  With a list of devices given, the script stops on the assertion of
    lines 217-219 with the world untouched, nothing read, translated or
    written, exactly when the list is longer than the device count. *)
Theorem device_count_check (device_count : Z) arrival (args : @Args Opts) w g :
  gpus args = Some g →
  script bt device_count arrival args w = (Raise AssertionError, w)
  ↔ device_count < Py.len g.
Proof.
  intros Hg. unfold script. rewrite Hg. munfold.
  destruct (Z.leb_spec (Py.len g) device_count) as [Hle|Hlt]; simpl.
  - split; [|lia]. intros Hmain.
    destruct (main_trace bt arrival args w) as [evs Ht].
    rewrite Hmain in Ht. simpl in Ht.
    apply (f_equal length) in Ht. rewrite length_app in Ht. simpl in Ht. lia.
  - split; [lia|done].
Qed.

(** C7.  If back-translation returns a number of documents other than the
    number of labels, [main] raises [AssertionError]; the files are those it
    started with and no output file was opened on the way. *)
Theorem mismatch_aborts_before_write arrival (args : @Args Opts) w
    data text labels text' back w2 :
  files w !! data_dir args = Some data →
  unpack_columns data = Ok (text, labels) →
  prepare (data_dir args) text = Ok text' →
  back_translate bt args arrival text' (after_read args w) = (Ok back, w2) →
  length back ≠ length labels →
  main bt arrival args w = (Raise AssertionError, w2) ∧
  files w2 = files w ∧
  ∀ p, EvWrite p ∈ trace w2 → EvWrite p ∈ trace w.
Proof.
  intros Hdata Hun Hprep Hback Hlen.
  rewrite (main_run bt _ _ _ _ _ _ _ Hdata Hun Hprep).
  destruct (quiet_back_translate bt args arrival text' (after_read args w))
    as [[Hf _] (evs & Ht & Hevs)].
  rewrite Hback in Hf, Ht. simpl in Hf, Ht.
  split; [|split; [done|]].
  - unfold translate_and_write. munfold. rewrite Hback.
    destruct (Z.eqb_spec (Py.len labels) (Py.len back)) as [Heq|_]; [|done].
    unfold Py.len in Heq. lia.
  - intros p. rewrite Ht, !elem_of_app.
    intros [[?|Hin]|Hin]; [done| |].
    + apply list_elem_of_singleton in Hin. done.
    + rewrite Forall_forall in Hevs. by apply Hevs in Hin.
Qed.

(** C10.  The texts go through [clean_for_imdb] exactly when the input path
    contains [imdb] or [IMDB]; with any other path [main] hands the texts it
    read to back-translation as they are. *)
Theorem cleanup_iff_imdb_in_path arrival (args : @Args Opts) w data text labels :
  files w !! data_dir args = Some data →
  unpack_columns data = Ok (text, labels) →
  (is_imdb (data_dir args) = true ↔
     Py.contains (lit "imdb") (data_dir args) = true ∨
     Py.contains (lit "IMDB") (data_dir args) = true) ∧
  (is_imdb (data_dir args) = true →
     main bt arrival args w =
     (text' ← lift (res_map clean_for_imdb text);
      translate_and_write bt arrival args data labels text') (after_read args w)) ∧
  (is_imdb (data_dir args) = false →
     main bt arrival args w =
     translate_and_write bt arrival args data labels text (after_read args w)).
Proof.
  intros Hdata Hun. split; [|split].
  - unfold is_imdb. by rewrite orb_true_iff.
  - intros Himdb. unfold main, read_tsv, lookup_file. munfold.
    cbn -[prepare unpack_columns translate_and_write].
    rewrite Hdata, Hun. cbn [fst snd]. unfold prepare. by rewrite Himdb.
  - intros Himdb. apply (main_run bt _ _ _ _ _ _ _ Hdata Hun).
    unfold prepare. by rewrite Himdb.
Qed.

End DriverClaims.

Lemma labels_preserved_witness :
  gpu_run = (Ok tt, gpu_run.2) ∧
  ∃ data out text labels text' back w2,
    files (sample_world train_tsv) !! train_tsv = Some data ∧
    files gpu_run.2 !! output_path (sample_args train_tsv (Some [0; 1]))
      = Some out ∧
    column 1 (tail out) = column 1 (tail data) ∧
    unpack_columns data = Ok (text, labels) ∧
    prepare train_tsv text = Ok text' ∧
    back_translate echo_model (sample_args train_tsv (Some [0; 1])) [1; 0]%nat
      text' (after_read (sample_args train_tsv (Some [0; 1]))
                        (sample_world train_tsv)) = (Ok back, w2) ∧
    column 0 (tail out) = map Some back.
Proof.
  assert (H : gpu_run = (Ok tt, gpu_run.2)) by (vm_compute; reflexivity).
  split; [exact H|].
  exact (labels_preserved echo_model _ _ _ _ H).
Defined.

Lemma row_count_preserved_witness :
  (∀ a d doc, length (echo_model a d doc) = length doc) ∧
  files (sample_world train_tsv) !! train_tsv = Some sample_data ∧
  gpu_run = (Ok tt, gpu_run.2) ∧
  ∃ out, files gpu_run.2 !! output_path (sample_args train_tsv (Some [0; 1]))
           = Some out ∧
         length (tail out) = length (tail sample_data).
Proof.
  assert (Hbt : ∀ (a : @Args unit) d doc,
             length (echo_model a d doc) = length doc).
  { intros a d doc. unfold echo_model. apply length_map. }
  assert (Hdata : files (sample_world train_tsv) !! train_tsv
                  = Some sample_data) by (vm_compute; reflexivity).
  assert (Hrun : gpu_run = (Ok tt, gpu_run.2)) by (vm_compute; reflexivity).
  split; [exact Hbt|]. split; [exact Hdata|]. split; [exact Hrun|].
  exact (row_count_preserved echo_model [1; 0]%nat
           (sample_args train_tsv (Some [0; 1]))
           (sample_world train_tsv) sample_data Hbt Hdata _ Hrun).
Defined.

Lemma output_shape_witness :
  cpu_run = (Ok tt, cpu_run.2) ∧
  ∃ data out header text labels text' back w2,
    files (sample_world imdb_tsv) !! imdb_tsv = Some data ∧
    files cpu_run.2 !! output_path (sample_args imdb_tsv None) = Some out ∧
    data !! 0%nat = Some header ∧ out !! 0%nat = Some header ∧
    unpack_columns data = Ok (text, labels) ∧
    prepare imdb_tsv text = Ok text' ∧
    back_translate echo_model (sample_args imdb_tsv None) [] text'
      (after_read (sample_args imdb_tsv None) (sample_world imdb_tsv))
      = (Ok back, w2) ∧
    length back = length labels ∧
    tail out = zip_with (fun line label => [line; label]) back labels ∧
    Forall (fun r => length r = 2%nat) (tail out).
Proof.
  assert (H : cpu_run = (Ok tt, cpu_run.2)) by (vm_compute; reflexivity).
  split; [exact H|].
  exact (output_shape echo_model _ _ _ _ H).
Defined.

Lemma device_count_check_witness :
  script echo_model 1 [] (sample_args train_tsv (Some [0; 1]))
         (sample_world train_tsv)
  = (Raise AssertionError, sample_world train_tsv)
  ↔ 1 < Py.len [0; 1].
Proof.
  apply (device_count_check echo_model 1 [] (sample_args train_tsv (Some [0; 1]))
           (sample_world train_tsv) [0; 1]).
  reflexivity.
Defined.

Lemma mismatch_aborts_before_write_witness :
  lossy_run = (Ok [lit "bad"; lit "so-so"], lossy_run.2) ∧
  (main lossy_model [] (sample_args train_tsv None) (sample_world train_tsv)
   = (Raise AssertionError, lossy_run.2) ∧
   files lossy_run.2 = files (sample_world train_tsv) ∧
   ∀ p, EvWrite p ∈ trace lossy_run.2 →
        EvWrite p ∈ trace (sample_world train_tsv)).
Proof.
  split; [vm_compute; reflexivity|].
  apply (mismatch_aborts_before_write lossy_model [] (sample_args train_tsv None)
           (sample_world train_tsv) sample_data sample_texts sample_labels
           sample_texts [lit "bad"; lit "so-so"] lossy_run.2).
  - vm_compute. reflexivity.
  - vm_compute. reflexivity.
  - vm_compute. reflexivity.
  - vm_compute. reflexivity.
  - vm_compute. lia.
Defined.

Lemma cleanup_iff_imdb_in_path_witness :
  is_imdb Imdb_tsv = false ∧
  main echo_model [] (sample_args Imdb_tsv None) (sample_world Imdb_tsv)
  = translate_and_write echo_model [] (sample_args Imdb_tsv None) sample_data
      sample_labels sample_texts
      (after_read (sample_args Imdb_tsv None) (sample_world Imdb_tsv)).
Proof.
  assert (Hno : is_imdb Imdb_tsv = false) by (vm_compute; reflexivity).
  split; [exact Hno|].
  destruct (cleanup_iff_imdb_in_path echo_model [] (sample_args Imdb_tsv None)
              (sample_world Imdb_tsv) sample_data sample_texts sample_labels)
    as (_ & _ & H).
  - vm_compute. reflexivity.
  - vm_compute. reflexivity.
  - exact (H Hno).
Defined.

(** C5 (as the code has it).  Where the description is defined, that is
    where every opening anchor tag met is closed by a later [>],
    [clean_for_imdb] returns what it describes: [<br />], [&quot;] and [<p>]
    are replaced in this order; if the result holds an opening anchor tag,
    the leftmost one is deleted up to its [>] until none is left and every
    [</a>] is then deleted, while a string without opening tag keeps its
    [</a>]; finally every backslash-n becomes a space. *)
Theorem clean_for_imdb_as_described (st r : str) :
  Words.clean_gated st = Some r → clean_for_imdb st = Ok r.
Proof.
  unfold Words.clean_gated, clean_for_imdb, clean_for_imdb_fuel.
  destruct (Words.strip_tags _ _) as [s'|] eqn:Hs; [|done]. simpl.
  intros [= <-]. apply strip_tags_loop in Hs.
  destruct (Py.contains A_HREF (clean_head st)) eqn:Hin.
  - by rewrite Hs.
  - simpl. do 2 f_equal. destruct (length (clean_head st)); simpl in Hs;
      rewrite Hin in Hs; by injection Hs.
Qed.

Lemma clean_for_imdb_as_described_witness :
  Words.clean_gated (lit "a<br />b&quot;c<p>d <a href=x.html>link</a>\nz")
    = Some (lit "a b" ++ DQUOTE ++ lit "c d link z") ∧
  clean_for_imdb (lit "a<br />b&quot;c<p>d <a href=x.html>link</a>\nz")
    = Ok (lit "a b" ++ DQUOTE ++ lit "c d link z").
Proof.
  split; [vm_compute; reflexivity|].
  apply clean_for_imdb_as_described. vm_compute. reflexivity.
Defined.

(** C5 as stated fails: a closing tag with no opening tag in the string is
    kept, although the description asks for every one to be deleted. *)
Lemma closing_tag_kept_without_opening_tag :
  clean_for_imdb (lit "x</a>") = Ok (lit "x</a>") ∧
  Words.clean_all (lit "x</a>") = Some (lit "x") ∧
  Py.contains A_CLOSE (lit "x</a>") = true.
Proof. vm_compute. repeat split; reflexivity. Qed.

(** C8.  [clean_for_imdb] never runs out of rounds: as many rounds as the
    string has characters are enough, and more change nothing.  Each pass
    of the loop body that hands back a string hands back a strictly shorter
    one, both when the tag is closed (the pass then always succeeds) and
    when it is not. *)
Theorem clean_for_imdb_terminates (st : str) :
  clean_for_imdb st ≠ OutOfFuel ∧
  (∀ fuel, (length (clean_head st) ≤ fuel)%nat →
           clean_for_imdb_fuel fuel st = clean_for_imdb st) ∧
  (∀ s, Py.contains A_HREF s = true →
        Py.find GT s (Py.find A_HREF s 0) ≠ -1 →
        ∃ s', href_step s = Ok s' ∧ (length s' < length s)%nat) ∧
  (∀ s s', Py.contains A_HREF s = true →
           Py.find GT s (Py.find A_HREF s 0) = -1 →
           href_step s = Ok s' → (length s' < length s)%nat).
Proof.
  split; [|split; [|split]].
  - unfold clean_for_imdb, clean_for_imdb_fuel.
    destruct (Py.contains A_HREF (clean_head st)); [|done].
    pose proof (href_loop_enough_fuel (length (clean_head st)) (clean_head st)
                  ltac:(lia)) as H.
    by destruct (href_loop _ _).
  - intros fuel Hfuel. unfold clean_for_imdb, clean_for_imdb_fuel.
    destruct (Py.contains A_HREF (clean_head st)); [|done].
    by rewrite (href_loop_more_fuel fuel (length (clean_head st))) by lia.
  - intros s Hin Hgt.
    assert (Hstep : ∃ s', href_step s = Ok s').
    { unfold href_step. apply Z.eqb_neq in Hgt. rewrite Hgt. simpl. eauto. }
    destruct Hstep as [s' Hs']. exists s'. split; [done|].
    by apply href_step_shrinks.
  - intros s s' Hin _ Hs'. by apply href_step_shrinks.
Qed.

Lemma clean_for_imdb_terminates_witness :
  clean_for_imdb (lit "x<a href=y>z<a href=w") ≠ OutOfFuel ∧
  clean_for_imdb_fuel 100 (lit "x<a href=y>z<a href=w")
    = clean_for_imdb (lit "x<a href=y>z<a href=w") ∧
  (∃ s', href_step (lit "x<a href=y>z<a href=w") = Ok s' ∧
         (length s' < length (lit "x<a href=y>z<a href=w"))%nat) ∧
  (length (lit "xzw") < length (lit "xz<a href=w"))%nat.
Proof.
  destruct (clean_for_imdb_terminates (lit "x<a href=y>z<a href=w"))
    as (H1 & H2 & H3 & H4).
  split; [exact H1|]. split; [|split].
  - apply H2. vm_compute. lia.
  - apply H3; vm_compute; [reflexivity|discriminate].
  - apply (H4 (lit "xz<a href=w")); vm_compute; reflexivity.
Defined.

(** The loop on a tag that is never closed: everything after the character
    that follows the tag is dropped, and with nothing after the tag the
    function raises. *)
Example unterminated_tag :
  clean_for_imdb (lit "see <a href=abc") = Ok (lit "see a") ∧
  clean_for_imdb (lit "see <a href=") = Raise IndexError.
Proof. vm_compute. split; reflexivity. Qed.

(** C9 as stated fails: deleting [</a>] or replacing backslash-n by a space
    after the loop can put an opening anchor tag together again. *)
Lemma href_recreated_by_later_replacements :
  clean_for_imdb (lit "<a\nhref=") = Ok (lit "<a href=") ∧
  clean_for_imdb (lit "<a href=x><</a>a href=") = Ok (lit "<a href=") ∧
  Py.contains A_HREF (lit "<a href=") = true.
Proof. vm_compute. repeat split; reflexivity. Qed.

(** C9 (as the code has it).  When [clean_for_imdb] returns, the string with
    which the loop was left holds no opening anchor tag, and the returned
    string holds one exactly when the two replacements that follow put one
    together: when the string the loop left holds the tag with backslash-n
    for its space, or, the loop having run, holds the tag, with its space
    or with backslash-n for it, cut by [</a>] between its characters. *)
Theorem href_in_result_iff_joined (st r : str) :
  clean_for_imdb st = Ok r →
  ∃ s, href_loop (length (clean_head st)) (clean_head st) = Ok s ∧
       Py.contains A_HREF s = false ∧
       (Py.contains A_HREF r = true ↔
          Py.contains A_NL_HREF s = true ∨
          (Py.contains A_HREF (clean_head st) = true ∧
           ∃ ks, Py.contains (splice A_CLOSE ks A_HREF) s = true ∨
                 Py.contains (splice A_CLOSE ks A_NL_HREF) s = true)).
Proof.
  unfold clean_for_imdb, clean_for_imdb_fuel.
  destruct (Py.contains A_HREF (clean_head st)) eqn:Hin.
  - destruct (href_loop _ _) as [s| |] eqn:Hloop; simpl; try done.
    intros [= <-]. exists s. split; [done|].
    pose proof (href_loop_exit _ _ _ Hloop) as Hs. split; [done|].
    rewrite href_after_newlines, href_after_deletion, nl_href_after_deletion.
    split.
    + intros [[ks H]|[ks H]]; right; (split; [done|]); exists ks; auto.
    + intros [H|[_ [ks [H|H]]]]; [|left; eauto|right; eauto].
      right. exists []. by rewrite splice_nil.
  - simpl. intros [= <-]. exists (clean_head st).
    split; [destruct (length (clean_head st)); simpl; by rewrite Hin|].
    split; [done|]. rewrite href_after_newlines, Hin. split.
    + intros [H|H]; [done|by left].
    + intros [H|[H _]]; [by right|done].
Qed.

Lemma href_in_result_iff_joined_witness :
  clean_for_imdb (lit "see <a href=x>this</a>") = Ok (lit "see this") ∧
  ∃ s, href_loop (length (clean_head (lit "see <a href=x>this</a>")))
         (clean_head (lit "see <a href=x>this</a>")) = Ok s ∧
       Py.contains A_HREF s = false ∧
       (Py.contains A_HREF (lit "see this") = true ↔
          Py.contains A_NL_HREF s = true ∨
          (Py.contains A_HREF (clean_head (lit "see <a href=x>this</a>")) = true ∧
           ∃ ks, Py.contains (splice A_CLOSE ks A_HREF) s = true ∨
                 Py.contains (splice A_CLOSE ks A_NL_HREF) s = true)).
Proof.
  split; [vm_compute; reflexivity|].
  apply (href_in_result_iff_joined (lit "see <a href=x>this</a>")).
  vm_compute. reflexivity.
Defined.

(** The two ways on samples: the loop does not run on the first and leaves
    the tag with backslash-n; on the second it leaves the tag cut by one
    [</a>] after its first character. *)
Example joined_tags :
  Py.contains A_HREF (clean_head (lit "<a\nhref=")) = false ∧
  Py.contains A_NL_HREF (clean_head (lit "<a\nhref=")) = true ∧
  href_loop 22 (clean_head (lit "<a href=x><</a>a href="))
  = Ok (splice A_CLOSE [1%nat] A_HREF) ∧
  splice A_CLOSE [1%nat] A_HREF = lit "<</a>a href=" ∧
  splice A_CLOSE [0; 2; 0; 1]%nat A_NL_HREF = lit "<a</a></a>\n</a>href=".
Proof. vm_compute. repeat split; reflexivity. Qed.

(** * Further properties of the code *)

(** ** Lengths through [replace] and the loop *)

Lemma replace_go_length (old new : str) (k : nat) (s : str) :
  old ≠ [] → (length new ≤ length old)%nat →
  (length (Py.replace_go old new k s) + Nat.min k (length s) ≤ length s)%nat.
Proof.
  intros Hold Hnew. revert k. induction s as [|c s IH]; intros k.
  - simpl. lia.
  - destruct k as [|k].
    + cbn [Py.replace_go].
      destruct (Py.startswith old (c :: s)) eqn:E.
      * apply startswith_length in E. rewrite length_app.
        pose proof (IH (Nat.pred (length old))). simpl in *.
        destruct old; [done|]. simpl in *. lia.
      * pose proof (IH 0%nat). simpl in *. lia.
    + cbn [Py.replace_go]. pose proof (IH k). simpl in *. lia.
Qed.

Lemma replace_length (old new s : str) :
  old ≠ [] → (length new ≤ length old)%nat →
  (length (Py.replace old new s) ≤ length s)%nat.
Proof.
  intros Hold Hnew. pose proof (replace_go_length old new 0 s Hold Hnew).
  unfold Py.replace. lia.
Qed.

Lemma replace_shrinks (old new s : str) :
  (length new < length old)%nat → Py.contains old s = true →
  (length (Py.replace old new s) < length s)%nat.
Proof.
  intros Hnew. assert (Hold : old ≠ []) by (intros ->; simpl in Hnew; lia).
  unfold Py.replace. induction s as [|c s IH]; intros Hin.
  - simpl in Hin. rewrite orb_false_r in Hin.
    apply startswith_length in Hin. simpl in Hin. lia.
  - cbn [Py.replace_go]. cbn [Py.contains] in Hin.
    destruct (Py.startswith old (c :: s)) eqn:E.
    + apply startswith_length in E. rewrite length_app.
      pose proof (replace_go_length old new (Nat.pred (length old)) s Hold
                    ltac:(lia)).
      simpl in *. lia.
    + simpl in Hin. apply IH in Hin. simpl. lia.
Qed.

Lemma replace_same_length (old new s : str) :
  (length new < length old)%nat →
  length (Py.replace old new s) = length s →
  Py.contains old s = false.
Proof.
  intros Hnew Hlen. destruct (Py.contains old s) eqn:E; [|done].
  pose proof (replace_shrinks old new s Hnew E). lia.
Qed.

Lemma href_loop_length (fuel : nat) (s r : str) :
  href_loop fuel s = Ok r → (length r ≤ length s)%nat.
Proof.
  revert s. induction fuel as [|fuel IH]; intros s; simpl.
  - destruct (Py.contains A_HREF s); [done|]. by intros [= <-].
  - destruct (Py.contains A_HREF s) eqn:Hin; [|by intros [= <-]].
    destruct (href_step s) as [s'| |] eqn:Hs; simpl; try done.
    intros Hr%IH. apply href_step_shrinks in Hs; [lia|done].
Qed.

Lemma href_loop_shrinks (fuel : nat) (s r : str) :
  Py.contains A_HREF s = true → href_loop fuel s = Ok r →
  (length r < length s)%nat.
Proof.
  intros Hin. destruct fuel as [|fuel]; simpl; rewrite Hin; [done|].
  destruct (href_step s) as [s'| |] eqn:Hs; simpl; try done.
  intros Hr%href_loop_length. apply href_step_shrinks in Hs; [lia|done].
Qed.

Lemma clean_head_length (st : str) :
  (length (clean_head st) ≤ length st)%nat.
Proof.
  unfold clean_head.
  pose proof (replace_length BR SPACE st ltac:(done) ltac:(simpl; lia)).
  pose proof (replace_length QUOT DQUOTE (Py.replace BR SPACE st)
                ltac:(done) ltac:(simpl; lia)).
  pose proof (replace_length PARA SPACE
                (Py.replace QUOT DQUOTE (Py.replace BR SPACE st))
                ltac:(done) ltac:(simpl; lia)).
  lia.
Qed.

(** X7.  Whatever [clean_for_imdb] returns is at most as long as its
    input. *)
Theorem clean_for_imdb_never_lengthens (st r : str) :
  clean_for_imdb st = Ok r → (length r ≤ length st)%nat.
Proof.
  unfold clean_for_imdb, clean_for_imdb_fuel.
  pose proof (clean_head_length st) as Hh.
  destruct (Py.contains A_HREF (clean_head st)).
  - destruct (href_loop _ _) as [s| |] eqn:Hl; simpl; try done.
    intros [= <-]. apply href_loop_length in Hl.
    pose proof (replace_length A_CLOSE [] s ltac:(done) ltac:(simpl; lia)).
    pose proof (replace_length BACKSLASH_N SPACE (Py.replace A_CLOSE [] s)
                  ltac:(done) ltac:(simpl; lia)).
    lia.
  - simpl. intros [= <-].
    pose proof (replace_length BACKSLASH_N SPACE (clean_head st)
                  ltac:(done) ltac:(simpl; lia)).
    lia.
Qed.

(** X8.  [clean_for_imdb] hands a string back unchanged exactly when the
    string holds none of [<br />], [&quot;], [<p>], [<a href=] and
    backslash-n.  (A lone [</a>] does not count: it is kept.) *)
Theorem clean_for_imdb_fixed_point (st : str) :
  clean_for_imdb st = Ok st ↔
  Py.contains BR st = false ∧ Py.contains QUOT st = false ∧
  Py.contains PARA st = false ∧ Py.contains A_HREF st = false ∧
  Py.contains BACKSLASH_N st = false.
Proof.
  split.
  - unfold clean_for_imdb, clean_for_imdb_fuel, clean_head.
    set (s1 := Py.replace BR SPACE st).
    set (s2 := Py.replace QUOT DQUOTE s1).
    set (s3 := Py.replace PARA SPACE s2).
    pose proof (replace_length BR SPACE st ltac:(done) ltac:(simpl; lia)) as H1.
    pose proof (replace_length QUOT DQUOTE s1 ltac:(done) ltac:(simpl; lia)) as H2.
    pose proof (replace_length PARA SPACE s2 ltac:(done) ltac:(simpl; lia)) as H3.
    fold s1 in H1. fold s2 in H2. fold s3 in H3.
    intros Hrun.
    assert (Hlen : length s3 = length st ∧ Py.contains A_HREF s3 = false ∧
                   Py.contains BACKSLASH_N s3 = false).
    { destruct (Py.contains A_HREF s3) eqn:Hin.
      - destruct (href_loop _ _) as [s| |] eqn:Hl; simpl in Hrun; try done.
        injection Hrun as Hrun. apply href_loop_shrinks in Hl; [|done].
        pose proof (replace_length A_CLOSE [] s ltac:(done) ltac:(simpl; lia)).
        pose proof (replace_length BACKSLASH_N SPACE (Py.replace A_CLOSE [] s)
                      ltac:(done) ltac:(simpl; lia)).
        rewrite Hrun in *. lia.
      - simpl in Hrun. injection Hrun as Hrun.
        pose proof (replace_length BACKSLASH_N SPACE s3
                      ltac:(done) ltac:(simpl; lia)) as H4.
        rewrite Hrun in H4. split; [lia|]. split; [done|].
        apply (replace_same_length _ SPACE); [simpl; lia|].
        rewrite Hrun. lia. }
    destruct Hlen as (Hlen & Hhref & Hbn).
    assert (Hbr : Py.contains BR st = false).
    { apply (replace_same_length _ SPACE); [simpl; lia|]. fold s1. lia. }
    assert (E1 : s1 = st) by (by apply replace_absent).
    assert (Hq : Py.contains QUOT st = false).
    { rewrite <- E1 at 1. apply (replace_same_length _ DQUOTE); [simpl; lia|].
      fold s2. lia. }
    assert (E2 : s2 = st).
    { unfold s2. rewrite E1. by apply replace_absent. }
    assert (Hp : Py.contains PARA st = false).
    { rewrite <- E2 at 1. apply (replace_same_length _ SPACE); [simpl; lia|].
      fold s3. lia. }
    assert (E3 : s3 = st).
    { unfold s3. rewrite E2. by apply replace_absent. }
    rewrite E3 in Hhref, Hbn. done.
  - intros (Hbr & Hq & Hp & Hh & Hn).
    unfold clean_for_imdb, clean_for_imdb_fuel, clean_head.
    rewrite (replace_absent BR) by done.
    rewrite (replace_absent QUOT) by done.
    rewrite (replace_absent PARA) by done.
    rewrite Hh. simpl. by rewrite (replace_absent BACKSLASH_N).
Qed.

(** ** The tag that is never closed *)

Lemma href_step_unterminated (s pre rest : str) :
  Words.partition A_HREF s = Some (pre, rest) →
  Py.contains GT rest = false →
  href_step s = match rest with
                | [] => Raise IndexError
                | c :: _ => Ok (pre ++ [c])
                end.
Proof.
  intros Hp Hgt.
  destruct (partition_some _ _ _ _ 0 Hp) as [Hs Hsp].
  unfold href_step. rewrite find_zero, Hsp, Z.add_0_l.
  assert (Hdrop : drop (Z.to_nat (Py.len pre)) s = A_HREF ++ rest).
  { unfold Py.len. rewrite Nat2Z.id, Hs. apply drop_app_length. }
  assert (Hlen : Py.len s = Py.len pre + 8 + Py.len rest).
  { rewrite Hs. unfold Py.len. rewrite !length_app.
    change (length A_HREF) with 8%nat. lia. }
  rewrite find_in_range by (unfold Py.len in *; lia).
  rewrite Hdrop, find_gt_past_href, (find_from_not_contains _ _ _ Hgt).
  simpl negb. cbv iota.
  rewrite slice_to by (unfold Py.len; lia).
  replace (take (Z.to_nat (Py.len pre)) s) with pre
    by (unfold Py.len; rewrite Nat2Z.id, Hs; symmetry; apply take_app_length).
  unfold Py.getitem. change (Py.len A_HREF) with 8.
  destruct (Z.ltb_spec (Py.len pre + 8) 0); [unfold Py.len in *; lia|].
  destruct (Z.ltb_spec (Py.len pre + 8) 0); [unfold Py.len in *; lia|].
  replace (Z.to_nat (Py.len pre + 8)) with (length (pre ++ A_HREF) + 0)%nat
    by (rewrite length_app; change (length A_HREF) with 8%nat;
        unfold Py.len; lia).
  rewrite Hs, (app_assoc pre A_HREF rest), lookup_app_r by lia.
  replace (length (pre ++ A_HREF) + 0 - length (pre ++ A_HREF))%nat
    with 0%nat by lia.
  by destruct rest.
Qed.

Lemma partition_contains (sep s a b : str) :
  Words.partition sep s = Some (a, b) → Py.contains sep s = true.
Proof.
  intros [-> _]%(partition_some _ _ _ _ 0). apply contains_app.
Qed.

(** X6.  Where the leftmost opening anchor tag left by the first three
    replacements has no [>] after it: with nothing after the tag
    [clean_for_imdb] raises [IndexError]; otherwise the pass keeps what
    precedes the tag and the one character that follows it, and drops the
    rest of the string. *)
Theorem unterminated_tag_truncates (st pre rest : str) :
  Words.partition A_HREF (clean_head st) = Some (pre, rest) →
  Py.contains GT rest = false →
  match rest with
  | [] => clean_for_imdb st = Raise IndexError
  | c :: _ =>
      href_step (clean_head st) = Ok (pre ++ [c]) ∧
      (Py.contains A_HREF (pre ++ [c]) = false →
       clean_for_imdb st =
       Ok (Py.replace BACKSLASH_N SPACE (Py.replace A_CLOSE [] (pre ++ [c]))))
  end.
Proof.
  intros Hp Hgt.
  pose proof (href_step_unterminated _ _ _ Hp Hgt) as Hstep.
  pose proof (partition_contains _ _ _ _ Hp) as Hin.
  assert (Hfuel : ∃ f, length (clean_head st) = S f).
  { apply contains_length in Hin. change (length A_HREF) with 8%nat in Hin.
    destruct (length (clean_head st)); [lia|eauto]. }
  destruct Hfuel as [f Hf].
  unfold clean_for_imdb, clean_for_imdb_fuel. rewrite Hin, Hf.
  cbn [href_loop]. rewrite Hin, Hstep.
  destruct rest as [|c rest]; [done|].
  split; [done|]. intros Hno. simpl.
  destruct f; simpl; by rewrite Hno.
Qed.

(** ** The only exception *)

Lemma getitem_raises {A} (l : list A) (i : Z) (e : exn) :
  Py.getitem l i = Raise e → e = IndexError.
Proof.
  unfold Py.getitem.
  destruct ((if i <? 0 then i + Py.len l else i) <? 0); [by intros [= <-]|].
  destruct (l !! _); [done|by intros [= <-]].
Qed.

Lemma href_step_raises (s : str) (e : exn) :
  href_step s = Raise e → e = IndexError.
Proof.
  unfold href_step. destruct (negb _); [done|].
  destruct (Py.getitem s _) as [c|e'|] eqn:Hc; simpl; try done.
  intros [= <-]. by apply getitem_raises in Hc.
Qed.

Lemma href_loop_raises (fuel : nat) (s : str) (e : exn) :
  href_loop fuel s = Raise e → e = IndexError.
Proof.
  revert s. induction fuel as [|fuel IH]; intros s; simpl.
  - by destruct (Py.contains A_HREF s).
  - destruct (Py.contains A_HREF s); [|done].
    destruct (href_step s) as [s'| |] eqn:Hs; simpl; try done.
    + apply IH.
    + intros [= <-]. by apply href_step_raises in Hs.
Qed.

Lemma clean_for_imdb_raises (st : str) (e : exn) :
  clean_for_imdb st = Raise e → e = IndexError.
Proof.
  unfold clean_for_imdb, clean_for_imdb_fuel.
  destruct (Py.contains A_HREF (clean_head st)); [|done].
  destruct (href_loop _ _) as [s| |] eqn:Hl; simpl; try done.
  intros [= <-]. by apply href_loop_raises in Hl.
Qed.

Lemma clean_for_imdb_fuel_enough (st : str) : clean_for_imdb st ≠ OutOfFuel.
Proof.
  unfold clean_for_imdb, clean_for_imdb_fuel.
  destruct (Py.contains A_HREF (clean_head st)); [|done].
  pose proof (href_loop_enough_fuel (length (clean_head st)) (clean_head st)
                ltac:(lia)) as H.
  by destruct (href_loop _ _).
Qed.

Lemma res_map_raises {A B} (f : A → res B) (xs : list A) (x : A) (E : exn) :
  (∀ y e, f y = Raise e → e = E) → (∀ y, f y ≠ OutOfFuel) →
  x ∈ xs → f x = Raise E → res_map f xs = Raise E.
Proof.
  intros Honly Hfuel Hin Hx. induction xs as [|y xs IH]; [by inversion Hin|].
  simpl. destruct (f y) as [b|e|] eqn:Hy; simpl.
  - assert (Hin' : x ∈ xs).
    { apply elem_of_cons in Hin as [->|?]; [congruence|done]. }
    by rewrite (IH Hin').
  - by rewrite (Honly _ _ Hy).
  - by apply Hfuel in Hy.
Qed.

Section Abort.
Context {Opts : Type}.
Variable bt : @Args Opts → option Z → list str → list str.

(** X9.  On an input path that asks for the cleaning, one text on which
    [clean_for_imdb] raises stops [main] with [IndexError] right after the
    input was read: nothing is translated and nothing written. *)
Theorem bad_text_aborts_run arrival (args : @Args Opts) w data text labels t :
  is_imdb (data_dir args) = true →
  files w !! data_dir args = Some data →
  unpack_columns data = Ok (text, labels) →
  t ∈ text → clean_for_imdb t = Raise IndexError →
  main bt arrival args w = (Raise IndexError, after_read args w).
Proof.
  intros Himdb Hdata Hun Hin Ht.
  unfold main, read_tsv, lookup_file. munfold.
  cbn -[prepare unpack_columns translate_and_write].
  rewrite Hdata, Hun. cbn [fst snd]. unfold prepare. rewrite Himdb.
  rewrite (res_map_raises clean_for_imdb text t IndexError); try done.
  - apply clean_for_imdb_raises.
  - apply clean_for_imdb_fuel_enough.
Qed.

End Abort.

(** ** More on the shards *)

Lemma len_seqZ (n : nat) : Py.len (seqZ 0 (Z.of_nat n)) = Z.of_nat n.
Proof. unfold Py.len. rewrite length_seqZ. lia. Qed.

(** X1.  For the devices 0, 1, ..., n-1 (n at least 2) the loop of lines
    84-90 builds n shards whose concatenation is the list of texts; all but
    the last have [len(text) // n] texts, the last has the remainder as
    well, and the assertion of line 91 holds. *)
Theorem sharding_on_device_range (text : list str) (n : nat) :
  (2 ≤ n)%nat →
  let shards := split_text text (seqZ 0 (Z.of_nat n)) in
  length shards = n ∧
  concat shards = text ∧
  Py.sum_len shards = Py.len text ∧
  (∀ i : nat, (i < n - 1)%nat →
     length <$> shards !! i
     = Some (Z.to_nat (Py.floordiv (Py.len text) (Z.of_nat n)))) ∧
  length <$> shards !! (n - 1)%nat
  = Some (Z.to_nat (Py.floordiv (Py.len text) (Z.of_nat n)
                    + Py.len text `mod` Z.of_nat n)).
Proof. intros Hn. exact (split_text_range text n Hn). Qed.

Lemma empty_shards (text : list str) (n k : nat) :
  (2 ≤ n)%nat → (length text < n)%nat → (k < n)%nat →
  map (shard text (Z.of_nat n) 0) (seqZ 0 (Z.of_nat k)) = replicate k [].
Proof.
  intros Hn Hshort. induction k as [|k IH]; intros Hk; [done|].
  rewrite seqZ_S, map_app, IH, replicate_S_end by lia. f_equal. simpl.
  unfold shard. destruct (Z.eqb_spec (0 + Z.of_nat k) (Z.of_nat n - 1)); [lia|].
  unfold Py.slice, Py.slice_bound. rewrite !Z.mul_0_r. simpl.
  rewrite Z.min_l by (unfold Py.len; lia). done.
Qed.

(** X2.  With fewer texts than devices the split point is 0: every shard
    but the last is empty and the last one is the whole list. *)
Theorem sharding_fewer_texts_than_devices (text : list str) (n : nat) :
  (2 ≤ n)%nat → (length text < n)%nat →
  split_text text (seqZ 0 (Z.of_nat n)) = replicate (n - 1) [] ++ [text].
Proof.
  intros Hn Hshort. rewrite split_text_map, len_seqZ.
  assert (Hsp : Py.floordiv (Py.len text) (Z.of_nat n) = 0).
  { unfold Py.floordiv, Py.len. apply Z.div_small. lia. }
  rewrite Hsp. replace n with (S (n - 1)) at 2 by lia.
  rewrite seqZ_S, map_app, empty_shards by lia. f_equal. simpl.
  replace (0 + Z.of_nat (n - 1)) with (Z.of_nat n - 1) by lia.
  pose proof (shard_last text n Hn) as Hlast. rewrite Hsp in Hlast.
  rewrite Hlast, Z.mul_0_r. done.
Qed.

Lemma concat_map_perm {A B} (f : A → list B) (l l' : list A) :
  l ≡ₚ l' → concat (map f l) ≡ₚ concat (map f l').
Proof.
  induction 1 as [|x l l' _ IH|x y l|l l' l'' _ IH1 _ IH2]; simpl.
  - done.
  - by rewrite IH.
  - rewrite !app_assoc. f_equiv. apply Permutation_app_comm.
  - by etrans.
Qed.

(** X3.  For the devices 0 .. n-1 given in any order every text is in
    exactly one shard and the assertion of line 91 holds; the shards follow
    the order of the list, not the order of the texts. *)
Theorem sharding_on_reordered_devices (text : list str) (n : nat) (g : list Z) :
  (2 ≤ n)%nat → g ≡ₚ seqZ 0 (Z.of_nat n) →
  concat (split_text text g) ≡ₚ text ∧
  Py.sum_len (split_text text g) = Py.len text.
Proof.
  intros Hn Hg.
  assert (Hlen : Py.len g = Z.of_nat n).
  { unfold Py.len. rewrite (Permutation_length Hg), length_seqZ. lia. }
  assert (Hperm : concat (split_text text g) ≡ₚ text).
  { rewrite split_text_map, Hlen.
    rewrite (concat_map_perm _ _ _ Hg).
    destruct (split_text_range text n Hn) as (_ & Hcat & _).
    cbv zeta in Hcat. rewrite split_text_map, len_seqZ in Hcat.
    by rewrite Hcat. }
  split; [done|]. rewrite sum_len_concat. unfold Py.len.
  by rewrite (Permutation_length Hperm).
Qed.

Section FanOutRuns.
Context {Opts : Type}.
Variable bt : @Args Opts → option Z → list str → list str.

(** What the workers return and the calls they make, worker by worker. *)
Lemma start_workers_run (args : @Args Opts) shards i w :
  start_workers bt args i shards w =
  (Ok (imap (fun j doc => bt args (Some (i + Z.of_nat j)) doc) shards),
   mkWorld (files w)
           (trace w ++
            imap (fun j doc => EvTranslate (Some (i + Z.of_nat j)) doc) shards)
           (host w)).
Proof.
  revert i w. induction shards as [|doc shards IH]; intros i w.
  - simpl. munfold. destruct w. by rewrite app_nil_r.
  - cbn [start_workers]. unfold multi_translate, translate. munfold.
    cbn -[start_workers imap]. rewrite IH. cbn -[imap].
    rewrite !imap_cons, Z.add_0_r, <- app_assoc. simpl app.
    rewrite (imap_ext (fun j doc => bt args (Some (i + 1 + Z.of_nat j)) doc)
               ((fun j doc => bt args (Some (i + Z.of_nat j)) doc) ∘ S))
      by (intros j x _; simpl; do 2 f_equal; lia).
    rewrite (imap_ext (fun j doc => EvTranslate (Some (i + 1 + Z.of_nat j)) doc)
               ((fun j doc => EvTranslate (Some (i + Z.of_nat j)) doc) ∘ S))
      by (intros j x _; simpl; do 2 f_equal; lia).
    done.
Qed.

Lemma fan_out_run arrival (args : @Args Opts) shards w :
  fan_out bt args arrival shards w =
  (Ok (concat (map (fun k =>
                      default [] (imap (fun j doc =>
                                          bt args (Some (Z.of_nat j)) doc)
                                       shards !! k))
                   arrival)),
   mkWorld (files w)
           (trace w ++ imap (fun j doc => EvTranslate (Some (Z.of_nat j)) doc)
                            shards)
           (host w)).
Proof.
  unfold fan_out. munfold. cbn -[start_workers imap].
  rewrite start_workers_run. cbn -[imap]. done.
Qed.

(** X4.  With two or more devices requested, the outcome of lines 82-110:
    if the shard lengths do not sum to the number of texts, nothing is
    translated and [AssertionError] is raised; otherwise worker [i], for
    [i] the position in the list and not the requested index, translates
    shard [i] on device [i], and the documents are joined in the order of
    arrival. *)
Theorem fan_out_by_position arrival (args : @Args Opts) g text w :
  gpus args = Some g → 1 < Py.len g →
  back_translate bt args arrival text w =
  if Py.sum_len (split_text text g) =? Py.len text then
    (Ok (concat (map (fun k =>
                        default [] (imap (fun j doc =>
                                            bt args (Some (Z.of_nat j)) doc)
                                         (split_text text g) !! k))
                     arrival)),
     mkWorld (files w)
             (trace w ++ imap (fun j doc => EvTranslate (Some (Z.of_nat j)) doc)
                              (split_text text g))
             (host w))
  else (Raise AssertionError, w).
Proof.
  intros Hg Hlen. unfold back_translate. rewrite Hg.
  destruct (Z.ltb_spec 1 (Py.len g)); [|lia].
  destruct (Py.sum_len (split_text text g) =? Py.len text); munfold;
    [|done].
  cbn -[split_text fan_out imap]. apply fan_out_run.
Qed.

Lemma back_translate_in_order (f : str → str) (args : @Args Opts)
    (n : nat) text w :
  (∀ a d doc, bt a d doc = map f doc) →
  (2 ≤ n)%nat → gpus args = Some (seqZ 0 (Z.of_nat n)) →
  ∃ w2, back_translate bt args (seq 0 n) text w = (Ok (map f text), w2) ∧
        files w2 = files w ∧ host w2 = host w.
Proof.
  intros Hf Hn Hg. unfold back_translate. rewrite Hg, len_seqZ.
  destruct (Z.ltb_spec 1 (Z.of_nat n)); [|lia].
  destruct (split_text_range text n Hn) as (Hcount & Hcat & Hsum & _).
  cbv zeta in Hcount, Hcat, Hsum. rewrite Hsum, Z.eqb_refl. munfold.
  cbn -[split_text fan_out imap]. rewrite fan_out_run.
  rewrite (imap_ext _ (const (map f))) by (intros; apply Hf).
  rewrite imap_const.
  change (list_fmap _ _ (map f)) with (map (map f)).
  set (shards := split_text text (seqZ 0 (Z.of_nat n))) in *.
  assert (Hseq : seq 0 n = seq 0 (length (map (map f) shards)))
    by (by rewrite length_map, Hcount).
  rewrite Hseq, lookup_every, <- concat_map, Hcat. eauto.
Qed.

End FanOutRuns.

Section MainShape.
Context {Opts : Type}.
Variable bt : @Args Opts → option Z → list str → list str.

(** [main], stage by stage. *)
Lemma main_stages arrival (args : @Args Opts) w :
  main bt arrival args w =
  match files w !! data_dir args with
  | None => (Raise FileNotFoundError, after_read args w)
  | Some data =>
      match unpack_columns data with
      | Ok (text, labels) =>
          match prepare (data_dir args) text with
          | Ok text' =>
              translate_and_write bt arrival args data labels text'
                (after_read args w)
          | Raise e => (Raise e, after_read args w)
          | OutOfFuel => (OutOfFuel, after_read args w)
          end
      | Raise e => (Raise e, after_read args w)
      | OutOfFuel => (OutOfFuel, after_read args w)
      end
  end.
Proof.
  unfold main, read_tsv, lookup_file. munfold.
  cbn -[prepare unpack_columns translate_and_write].
  destruct (files w !! data_dir args) as [data|]; [|done].
  by destruct (unpack_columns data) as [[text labels]| |].
Qed.

Lemma translate_and_write_stages arrival (args : @Args Opts)
    data labels text w :
  translate_and_write bt arrival args data labels text w =
  match back_translate bt args arrival text w with
  | (Ok back, w2) =>
      if Py.len labels =? Py.len back then
        write_output args data labels back w2
      else (Raise AssertionError, w2)
  | (Raise e, w2) => (Raise e, w2)
  | (OutOfFuel, w2) => (OutOfFuel, w2)
  end.
Proof.
  unfold translate_and_write. munfold.
  destruct (back_translate bt args arrival text w) as [[back| |] w2]; try done.
  by destruct (Py.len labels =? Py.len back).
Qed.

(** The outcome of [main] and what it leaves behind: either nothing but the
    trace has changed; or the run completed and wrote its table after
    reading and translating; or the host refused the output file, its
    opening, a row, or its closing, and no other file has changed. *)
Lemma main_outcome arrival (args : @Args Opts) w :
  ∃ r evs, Forall is_translate evs ∧
    ((r ≠ Ok tt ∧
      main bt arrival args w =
      (r, mkWorld (files w) (trace w ++ EvRead (data_dir args) :: evs)
                  (host w))) ∨
     (r = Ok tt ∧
      ∃ t, main bt arrival args w =
           (r,
            mkWorld (<[output_path args := t]> (files w))
                    (trace w ++ EvRead (data_dir args) :: evs
                       ++ [EvWrite (output_path args)])
                    (host w))) ∨
     (∃ e fs, r = Raise e ∧ host_raises (host w) e ∧
              (∀ q, q ≠ output_path args → fs !! q = files w !! q) ∧
              main bt arrival args w =
              (r,
               mkWorld fs
                       (trace w ++ EvRead (data_dir args) :: evs
                          ++ [EvWrite (output_path args)])
                       (host w)))).
Proof.
  rewrite main_stages. unfold after_read.
  destruct (files w !! data_dir args) as [data|]; cycle 1.
  { exists (Raise FileNotFoundError), []. split; [done|]. by left. }
  destruct (unpack_columns data) as [[text labels]|e|] eqn:Hun; cycle 1.
  { exists (Raise e), []. split; [done|]. by left. }
  { exists OutOfFuel, []. split; [done|]. by left. }
  destruct (prepare (data_dir args) text) as [text'|e|]; cycle 1.
  { exists (Raise e), []. split; [done|]. by left. }
  { exists OutOfFuel, []. split; [done|]. by left. }
  destruct (unpack_columns_inv _ _ _ Hun) as (header & rest & -> & _).
  rewrite translate_and_write_stages.
  destruct (quiet_back_translate bt args arrival text'
              (mkWorld (files w) (trace w ++ [EvRead (data_dir args)])
                       (host w)))
    as [[Hf Hh] (evs & Ht & Hevs)].
  destruct (back_translate bt args arrival text' _) as [[back|e|] [fs tr h]];
    simpl in Hf, Hh, Ht; subst fs tr h; rewrite <- app_assoc; simpl app.
  - destruct (Py.len labels =? Py.len back).
    + set (w2 := mkWorld (files w)
                   (trace w ++ EvRead (data_dir args) :: evs) (host w)).
      destruct (takes_table (host w2) (output_path args)
                  (header :: out_rows back labels)) eqn:Htakes.
      * exists (Ok tt), evs. split; [done|]. right. left. split; [done|].
        eexists. rewrite write_output_ok by done. simpl.
        by rewrite <- !app_assoc.
      * destruct (write_output_refused args header rest labels back w2 Htakes)
          as (e & fs & Hraise & Hfs & ->).
        exists (Raise e), evs. split; [done|]. right. right.
        exists e, fs. repeat split; try done. simpl.
        by rewrite <- !app_assoc.
    + exists (Raise AssertionError), evs. split; [done|]. by left.
  - exists (Raise e), evs. split; [done|]. by left.
  - exists OutOfFuel, evs. split; [done|]. by left.
Qed.

(** X12.  If [main] ends in any way other than normal completion, then
    either the files are as they were and no output file was opened, or the
    output file was opened and the host raised on its opening, on one of its
    rows or on its closing: then every file other than the output file is as
    it was. *)
Theorem failure_before_or_at_output arrival (args : @Args Opts) w r w' :
  main bt arrival args w = (r, w') → r ≠ Ok tt →
  (files w' = files w ∧
   ∀ p, EvWrite p ∈ trace w' → EvWrite p ∈ trace w) ∨
  (EvWrite (output_path args) ∈ trace w' ∧
   ∃ e, r = Raise e ∧ host_raises (host w) e ∧
        ∀ p, p ≠ output_path args → files w' !! p = files w !! p).
Proof.
  intros Hmain Hr.
  destruct (main_outcome arrival args w)
    as (r0 & evs & Hevs & [[_ H]|[[-> [t H]]|(e & fs & -> & Hraise & Hfs & H)]]);
    rewrite H in Hmain.
  - injection Hmain as <- <-. left. split; [done|]. intros p. simpl.
    rewrite elem_of_app, elem_of_cons.
    intros [?|[?|Hin]]; [done|done|].
    rewrite Forall_forall in Hevs. by apply Hevs in Hin.
  - by injection Hmain as <- _.
  - injection Hmain as <- <-. right. simpl. split.
    + rewrite elem_of_app, elem_of_cons, elem_of_app, list_elem_of_singleton.
      auto.
    + by exists e.
Qed.

(** X13.  A completed run of [main] has read its input first, then only
    called the model, and opened its output last: the output is opened once
    all translation is done. *)
Theorem read_translate_write_order arrival (args : @Args Opts) w w' :
  main bt arrival args w = (Ok tt, w') →
  ∃ evs, Forall is_translate evs ∧
         trace w' = trace w ++ [EvRead (data_dir args)] ++ evs
                            ++ [EvWrite (output_path args)].
Proof.
  intros Hmain.
  destruct (main_outcome arrival args w)
    as (r0 & evs & Hevs & [[Hr H]|[[-> [t H]]|(e & fs & -> & _ & _ & H)]]);
    rewrite H in Hmain.
  - injection Hmain as -> _. done.
  - injection Hmain as <-. by exists evs.
  - done.
Qed.

End MainShape.

(** ** The output path *)

Lemma basename_without_slash (b : str) :
  existsb (N.eqb Py.SLASH) b = false → Py.basename b = b.
Proof.
  destruct b as [|c b]; [done|]. cbn [existsb Py.basename].
  intros [Hc Hb]%orb_false_iff. rewrite Hb.
  rewrite N.eqb_sym in Hc. by rewrite Hc.
Qed.

Lemma basename_has_no_slash (p : str) :
  existsb (N.eqb Py.SLASH) (Py.basename p) = false.
Proof.
  induction p as [|c p IH]; [done|]. cbn [Py.basename].
  destruct (existsb (N.eqb Py.SLASH) p) eqn:Hp; [done|].
  destruct (N.eqb c Py.SLASH) eqn:Hc; [done|].
  cbn [existsb]. rewrite Hp, N.eqb_sym, Hc. done.
Qed.

Lemma basename_after_directory (x b : str) :
  x = [] ∨ last x = Some Py.SLASH →
  existsb (N.eqb Py.SLASH) b = false →
  Py.basename (x ++ b) = b.
Proof.
  intros Hx Hb. induction x as [|c x IH].
  - by apply basename_without_slash.
  - destruct Hx as [?|Hlast]; [done|].
    cbn [app Py.basename]. destruct x as [|c' x].
    + simpl in Hlast. injection Hlast as ->. cbn [app].
      by rewrite Hb, N.eqb_refl.
    + assert (Hlast' : last (c' :: x) = Some Py.SLASH) by done.
      assert (Hin : existsb (N.eqb Py.SLASH) ((c' :: x) ++ b) = true).
      { rewrite existsb_app. apply orb_true_iff. left.
        apply existsb_exists. exists Py.SLASH. split; [|done].
        apply list_elem_of_In. apply last_Some_elem_of. done. }
      rewrite Hin. apply IH. by right.
Qed.

Lemma path_join_shape (a b : str) :
  Py.startswith [Py.SLASH] b = false →
  ∃ x, Py.path_join a b = x ++ b ∧ (x = [] ∨ last x = Some Py.SLASH).
Proof.
  intros Hb. unfold Py.path_join. rewrite Hb.
  destruct (Nat.eqb (length a) 0) eqn:Ha; simpl.
  - apply Nat.eqb_eq in Ha. destruct a; [|done]. exists []. auto.
  - unfold Py.endswith_slash. destruct (last a) as [c|] eqn:Hl.
    + destruct (N.eqb c Py.SLASH) eqn:Hc.
      * apply N.eqb_eq in Hc as ->. exists a. auto.
      * exists (a ++ [Py.SLASH]). rewrite <- app_assoc. split; [done|].
        right. by rewrite last_snoc.
    + exists (a ++ [Py.SLASH]). rewrite <- app_assoc. split; [done|].
      right. by rewrite last_snoc.
Qed.

Section Output.
Context {Opts : Type}.
Variable bt : @Args Opts → option Z → list str → list str.

Lemma output_path_basename (args : @Args Opts) :
  Py.basename (output_path args) = lit "bt_" ++ Py.basename (data_dir args).
Proof.
  unfold output_path.
  destruct (path_join_shape (output_dir args)
              (lit "bt_" ++ Py.basename (data_dir args)) eq_refl)
    as (x & -> & Hx).
  apply basename_after_directory; [done|].
  rewrite existsb_app, basename_has_no_slash. done.
Qed.

Lemma output_path_differs (args : @Args Opts) :
  output_path args ≠ data_dir args.
Proof.
  pose proof (output_path_basename args) as Hbase.
  intros Heq. rewrite Heq in Hbase.
  apply (f_equal length) in Hbase. rewrite length_app in Hbase.
  simpl in Hbase. lia.
Qed.

(** X14.  The output file is named [bt_] followed by the base name of the
    input path, whatever the output directory; it is never the input
    path. *)
Theorem output_path_is_not_input (args : @Args Opts) :
  Py.basename (output_path args) = lit "bt_" ++ Py.basename (data_dir args) ∧
  output_path args ≠ data_dir args.
Proof.
  split; [apply output_path_basename|apply output_path_differs].
Qed.

(** X15.  Whatever its outcome, [main] leaves every file other than the
    output path as it was; in particular the input file. *)
Theorem only_output_file_written arrival (args : @Args Opts) w :
  (∀ p, p ≠ output_path args →
        files (main bt arrival args w).2 !! p = files w !! p) ∧
  files (main bt arrival args w).2 !! data_dir args = files w !! data_dir args.
Proof.
  assert (H : ∀ p, p ≠ output_path args →
                   files (main bt arrival args w).2 !! p = files w !! p).
  { intros p Hp.
    destruct (main_outcome bt arrival args w)
      as (r & evs & _ & [[_ ->]|[[_ [t ->]]|(e & fs & _ & _ & Hfs & ->)]]);
      simpl; [done| |by apply Hfs]. by rewrite lookup_insert_ne. }
  split; [done|]. apply H. intros Heq. by apply (output_path_differs args).
Qed.

End Output.

(** ** The shape of the table *)

Lemma zip_star_lookup_is_Some {A} (rows : list (list A)) (j : nat) :
  is_Some (Py.zip_star rows !! j) ↔
  rows ≠ [] ∧ Forall (fun r => (j < length r)%nat) rows.
Proof.
  induction rows as [|r0 rows IH].
  - simpl. split; [by intros [? ?]|by intros [? _]].
  - destruct rows as [|r1 rows].
    + simpl. rewrite list_lookup_fmap.
      destruct (r0 !! j) as [x|] eqn:Hx; simpl.
      * apply lookup_lt_Some in Hx. split; [|by eauto].
        intros _. split; [done|]. by repeat constructor.
      * apply lookup_ge_None in Hx. split; [by intros [? ?]|].
        intros [_ H]. inversion H; subst. lia.
    + change (Py.zip_star (r0 :: r1 :: rows))
        with (zip_with cons r0 (Py.zip_star (r1 :: rows))).
      remember (r1 :: rows) as rows' eqn:Hrows'.
      rewrite lookup_zip_with.
      destruct (r0 !! j) as [x|] eqn:Hx; simpl.
      * apply lookup_lt_Some in Hx.
        destruct (Py.zip_star rows' !! j) as [col|] eqn:Hc; simpl.
        -- split; [|by eauto]. intros _. split; [done|].
           constructor; [done|]. by apply IH.
        -- split; [by intros [? ?]|]. intros [_ H]. inversion H; subst.
           assert (Hs : is_Some (None : option (list A))); [|by destruct Hs].
           apply IH. split; [congruence|done].
      * apply lookup_ge_None in Hx. split; [by intros [? ?]|].
        intros [_ H]. inversion H; subst. lia.
Qed.

Lemma zip_star_two_columns {A} (rows : list (list A)) :
  length (Py.zip_star rows) = 2%nat ↔
  Forall (fun r => (2 ≤ length r)%nat) rows ∧
  Exists (fun r => length r = 2%nat) rows.
Proof.
  assert (Hlen : length (Py.zip_star rows) = 2%nat ↔
                 is_Some (Py.zip_star rows !! 1%nat) ∧
                 ¬ is_Some (Py.zip_star rows !! 2%nat)).
  { rewrite !lookup_lt_is_Some. lia. }
  rewrite Hlen, !zip_star_lookup_is_Some. split.
  - intros [[Hne H2] H3]. split; [done|].
    assert (Hex : Exists (not ∘ (fun r => (2 < length r)%nat)) rows).
    { apply not_Forall_Exists; [intros r; apply _|]. intros H. by apply H3. }
    rewrite Exists_exists in *. destruct Hex as (r & Hin & Hr).
    exists r. split; [done|]. rewrite Forall_forall in H2.
    specialize (H2 r Hin). simpl in *. lia.
  - intros [H2 Hex]. split; [split; [|done]|].
    + intros ->. by inversion Hex.
    + intros [_ H3]. rewrite Exists_exists in Hex.
      destruct Hex as (r & Hin & Hr). rewrite Forall_forall in H3.
      specialize (H3 r Hin). lia.
Qed.

Lemma unpack_columns_ok_iff (data : table) :
  (∃ text labels, unpack_columns data = Ok (text, labels)) ↔
  Forall (fun r => (2 ≤ length r)%nat) (tail data) ∧
  Exists (fun r => length r = 2%nat) (tail data).
Proof.
  rewrite <- zip_star_two_columns. unfold unpack_columns.
  rewrite slice_from by lia. change (Z.to_nat 1) with 1%nat.
  replace (drop 1 data) with (tail data) by (by destruct data).
  destruct (Py.zip_star (tail data)) as [|c0 [|c1 [|c2 cs]]]; simpl;
    split; try done; try (by intros (? & ? & ?)); eauto.
Qed.

(** X10.  Line 72 either yields the two columns or raises [ValueError]; it
    yields them exactly when every data row has at least two fields and
    some data row has exactly two.  The texts and labels are then the first
    and second field of every data row, further fields being dropped. *)
Theorem unpack_columns_shape (data : table) :
  (unpack_columns data = Raise ValueError ∨
   ∃ text labels, unpack_columns data = Ok (text, labels)) ∧
  ((∃ text labels, unpack_columns data = Ok (text, labels)) ↔
   Forall (fun r => (2 ≤ length r)%nat) (tail data) ∧
   Exists (fun r => length r = 2%nat) (tail data)) ∧
  (∀ text labels,
     unpack_columns data = Ok (text, labels) →
     column 0 (tail data) = map Some text ∧
     column 1 (tail data) = map Some labels).
Proof.
  split; [|split].
  - unfold unpack_columns.
    destruct (Py.zip_star _) as [|c0 [|c1 [|c2 cs]]]; eauto.
  - apply unpack_columns_ok_iff.
  - intros text labels Hun.
    destruct (unpack_columns_inv _ _ _ Hun)
      as (header & rows & -> & _ & Ht & Hl & Hr). simpl.
    split; apply column_of_rows; try done; intros i r Hi; by apply Hr.
Qed.

Section Malformed.
Context {Opts : Type}.
Variable bt : @Args Opts → option Z → list str → list str.

(** X11.  A file with no data row, with a data row of fewer than two
    fields, or with more than two fields in every data row makes [main]
    raise [ValueError] right after reading it. *)
Theorem malformed_table_aborts arrival (args : @Args Opts) w data :
  files w !! data_dir args = Some data →
  tail data = [] ∨
  Exists (fun r => (length r < 2)%nat) (tail data) ∨
  Forall (fun r => (2 < length r)%nat) (tail data) →
  main bt arrival args w = (Raise ValueError, after_read args w).
Proof.
  intros Hdata Hbad. rewrite main_stages, Hdata.
  assert (Hno : ¬ ∃ text labels, unpack_columns data = Ok (text, labels)).
  { rewrite unpack_columns_ok_iff. intros [H2 Hex].
    rewrite Forall_forall in H2. rewrite Exists_exists in Hex.
    destruct Hex as (r & Hin & Hr).
    destruct Hbad as [Hnil|[Hshort|Hlong]].
    - rewrite Hnil in Hin. by inversion Hin.
    - rewrite Exists_exists in Hshort. destruct Hshort as (r' & Hin' & Hr').
      specialize (H2 r' Hin'). lia.
    - rewrite Forall_forall in Hlong. specialize (Hlong r Hin). lia. }
  unfold unpack_columns in *.
  destruct (Py.zip_star _) as [|c0 [|c1 [|c2 cs]]]; try done.
  exfalso. apply Hno. eauto.
Qed.

(** X5.  With a model that translates text by text, a run on the devices
    0 .. n-1 whose workers deliver in order ends as the run on the CPU does
    and leaves the same files. *)
Theorem fan_out_in_order_matches_cpu (f : str → str) (n : nat) arrival
    (dd od : str) (o : Opts) w :
  (∀ a d doc, bt a d doc = map f doc) → (2 ≤ n)%nat →
  (main bt (seq 0 n) (mkArgs dd od (Some (seqZ 0 (Z.of_nat n))) o) w).1
  = (main bt arrival (mkArgs dd od None o) w).1 ∧
  files (main bt (seq 0 n) (mkArgs dd od (Some (seqZ 0 (Z.of_nat n))) o) w).2
  = files (main bt arrival (mkArgs dd od None o) w).2.
Proof.
  intros Hf Hn.
  set (ag := mkArgs dd od (Some (seqZ 0 (Z.of_nat n))) o).
  set (ac := mkArgs dd od None o).
  assert (Hop : output_path ag = output_path ac) by done.
  assert (Har : after_read ag w = after_read ac w) by done.
  rewrite !main_stages.
  change (data_dir ag) with dd. change (data_dir ac) with dd.
  destruct (files w !! dd) as [data|]; [|done].
  destruct (unpack_columns data) as [[text labels]| |] eqn:Hun; try done.
  destruct (prepare dd text) as [text'| |]; try done.
  destruct (unpack_columns_inv _ _ _ Hun) as (header & rest & -> & _).
  rewrite !translate_and_write_stages.
  destruct (back_translate_in_order bt f ag n text' (after_read ag w)
              Hf Hn eq_refl) as (w2 & -> & Hw2 & Hh2).
  assert (Hcpu : back_translate bt ac arrival text' (after_read ac w)
                 = (Ok (map f text'),
                    mkWorld (files w)
                            (trace (after_read ac w) ++ [EvTranslate None text'])
                            (host w))).
  { unfold back_translate, translate. munfold. simpl. by rewrite Hf. }
  rewrite Hcpu.
  destruct (Py.len labels =? Py.len (map f text')); cbn [fst snd files];
    [|by rewrite Hw2].
  assert (Hsame : same_store w2
            (mkWorld (files w)
               (trace (after_read ac w) ++ [EvTranslate None text']) (host w)))
    by (by split).
  destruct (store_only_write_output ac (header :: rest) labels (map f text')
              _ _ Hsame) as [Hr [Hfs _]].
  split; [exact Hr|exact Hfs].
Qed.

End Malformed.

(** ** The outcomes of the cleaning, and sample runs of the above *)

(** X16.  [clean_for_imdb] either returns a string or raises [IndexError];
    it raises nothing else. *)
Theorem clean_for_imdb_outcomes (st : str) :
  (∃ r, clean_for_imdb st = Ok r) ∨ clean_for_imdb st = Raise IndexError.
Proof.
  destruct (clean_for_imdb st) as [r|e|] eqn:Hc.
  - left. eauto.
  - right. by rewrite (clean_for_imdb_raises _ _ Hc).
  - by apply clean_for_imdb_fuel_enough in Hc.
Qed.

Lemma sharding_on_device_range_witness :
  (2 ≤ 2)%nat ∧
  let shards := split_text four_texts (seqZ 0 (Z.of_nat 2)) in
  length shards = 2%nat ∧
  concat shards = four_texts ∧
  Py.sum_len shards = Py.len four_texts ∧
  (∀ i : nat, (i < 2 - 1)%nat →
     length <$> shards !! i
     = Some (Z.to_nat (Py.floordiv (Py.len four_texts) (Z.of_nat 2)))) ∧
  length <$> shards !! (2 - 1)%nat
  = Some (Z.to_nat (Py.floordiv (Py.len four_texts) (Z.of_nat 2)
                    + Py.len four_texts `mod` Z.of_nat 2)).
Proof.
  split; [lia|]. apply (sharding_on_device_range four_texts 2). lia.
Defined.

Lemma sharding_fewer_texts_than_devices_witness :
  split_text [lit "a"] (seqZ 0 (Z.of_nat 3)) = replicate (3 - 1) [] ++ [[lit "a"]].
Proof.
  apply (sharding_fewer_texts_than_devices [lit "a"] 3); simpl; lia.
Defined.

Lemma sharding_on_reordered_devices_witness :
  concat (split_text four_texts [1; 0]) ≡ₚ four_texts ∧
  Py.sum_len (split_text four_texts [1; 0]) = Py.len four_texts.
Proof.
  apply (sharding_on_reordered_devices four_texts 2 [1; 0]); [lia|].
  apply Permutation_swap.
Defined.

Lemma fan_out_by_position_witness :
  back_translate echo_model (sample_args train_tsv (Some [1; 0])) [0; 1]%nat
    four_texts four_world
  = (Ok [lit "c!"; lit "d!"; lit "a!"; lit "b!"],
     mkWorld (files four_world)
             [EvTranslate (Some 0) [lit "c"; lit "d"];
              EvTranslate (Some 1) [lit "a"; lit "b"]]
             (host four_world)).
Proof.
  rewrite (fan_out_by_position echo_model [0; 1]%nat
             (sample_args train_tsv (Some [1; 0])) [1; 0] four_texts four_world).
  - vm_compute. reflexivity.
  - reflexivity.
  - vm_compute. reflexivity.
Defined.

Lemma fan_out_in_order_matches_cpu_witness :
  (main echo_model (seq 0 2)
     (mkArgs train_tsv (lit "out") (Some (seqZ 0 (Z.of_nat 2))) tt)
     (sample_world train_tsv)).1
  = (main echo_model [] (mkArgs train_tsv (lit "out") None tt)
       (sample_world train_tsv)).1 ∧
  files (main echo_model (seq 0 2)
           (mkArgs train_tsv (lit "out") (Some (seqZ 0 (Z.of_nat 2))) tt)
           (sample_world train_tsv)).2
  = files (main echo_model [] (mkArgs train_tsv (lit "out") None tt)
             (sample_world train_tsv)).2.
Proof.
  apply (fan_out_in_order_matches_cpu echo_model exclaim 2 [] train_tsv
           (lit "out") tt (sample_world train_tsv)).
  - intros a d doc. reflexivity.
  - lia.
Defined.

Lemma unterminated_tag_truncates_witness :
  clean_for_imdb (lit "see <a href=") = Raise IndexError ∧
  href_step (clean_head (lit "see <a href=abc")) = Ok (lit "see " ++ [97%N]) ∧
  (Py.contains A_HREF (lit "see " ++ [97%N]) = false →
   clean_for_imdb (lit "see <a href=abc")
   = Ok (Py.replace BACKSLASH_N SPACE
           (Py.replace A_CLOSE [] (lit "see " ++ [97%N])))).
Proof.
  split.
  - apply (unterminated_tag_truncates (lit "see <a href=") (lit "see ") []);
      vm_compute; reflexivity.
  - apply (unterminated_tag_truncates (lit "see <a href=abc") (lit "see ")
             (lit "abc")); vm_compute; reflexivity.
Defined.

Lemma clean_for_imdb_never_lengthens_witness :
  clean_for_imdb (lit "a<br />b") = Ok (lit "a b") ∧
  (length (lit "a b") ≤ length (lit "a<br />b"))%nat.
Proof.
  assert (H : clean_for_imdb (lit "a<br />b") = Ok (lit "a b"))
    by (vm_compute; reflexivity).
  split; [exact H|]. exact (clean_for_imdb_never_lengthens _ _ H).
Defined.

Lemma clean_for_imdb_fixed_point_witness :
  clean_for_imdb (lit "a plain </a> text") = Ok (lit "a plain </a> text").
Proof.
  apply clean_for_imdb_fixed_point. vm_compute. repeat split; reflexivity.
Defined.

Lemma bad_text_aborts_run_witness :
  main echo_model [] (sample_args imdb_tsv None) bad_world
  = (Raise IndexError, after_read (sample_args imdb_tsv None) bad_world).
Proof.
  apply (bad_text_aborts_run echo_model [] (sample_args imdb_tsv None) bad_world
           bad_data [lit "fine"; lit "see <a href="] [lit "1"; lit "0"]
           (lit "see <a href=")).
  - vm_compute. reflexivity.
  - vm_compute. reflexivity.
  - vm_compute. reflexivity.
  - apply list_elem_of_In. right. left. reflexivity.
  - vm_compute. reflexivity.
Defined.

Lemma unpack_columns_shape_witness :
  ∃ text labels, unpack_columns sample_data = Ok (text, labels) ∧
                 column 0 (tail sample_data) = map Some text ∧
                 column 1 (tail sample_data) = map Some labels.
Proof.
  destruct (unpack_columns_shape sample_data) as (_ & Hiff & Hcols).
  destruct (proj2 Hiff) as (text & labels & Hun).
  - split.
    + repeat constructor.
    + apply Exists_cons_hd. reflexivity.
  - exists text, labels. split; [exact Hun|]. exact (Hcols _ _ Hun).
Defined.

Lemma malformed_table_aborts_witness :
  main echo_model [] (sample_args train_tsv None) header_only_world
  = (Raise ValueError, after_read (sample_args train_tsv None) header_only_world).
Proof.
  apply (malformed_table_aborts echo_model [] (sample_args train_tsv None)
           header_only_world header_only).
  - vm_compute. reflexivity.
  - left. reflexivity.
Defined.

Lemma failure_before_or_at_output_witness :
  strict_run = (Raise UnicodeEncodeError, strict_run.2) ∧
  files strict_run.2 !! output_path (sample_args train_tsv None)
  = Some [[lit "text"; lit "label"]] ∧
  ((files strict_run.2 = files strict_world ∧
    ∀ p, EvWrite p ∈ trace strict_run.2 → EvWrite p ∈ trace strict_world) ∨
   (EvWrite (output_path (sample_args train_tsv None)) ∈ trace strict_run.2 ∧
    ∃ e, @Raise unit UnicodeEncodeError = Raise e ∧
         host_raises (host strict_world) e ∧
         ∀ p, p ≠ output_path (sample_args train_tsv None) →
              files strict_run.2 !! p = files strict_world !! p)).
Proof.
  assert (H : strict_run = (Raise UnicodeEncodeError, strict_run.2))
    by (vm_compute; reflexivity).
  split; [exact H|]. split; [vm_compute; reflexivity|].
  apply (failure_before_or_at_output echo_model [] (sample_args train_tsv None)
           strict_world (Raise UnicodeEncodeError) strict_run.2 H).
  discriminate.
Defined.

(** The sample run on the two hosts that refuse: with no directory nothing
    is written; with the strict encoding the header row is, and the first
    translated row is not. *)
Example refused_output :
  homeless_run.1 = Raise FileNotFoundError ∧
  files homeless_run.2 = files homeless_world ∧
  strict_run.1 = Raise UnicodeEncodeError ∧
  files strict_run.2 !! output_path (sample_args train_tsv None)
  = Some [[lit "text"; lit "label"]] ∧
  files strict_run.2 !! train_tsv = Some sample_data.
Proof. vm_compute. repeat split; reflexivity. Qed.

Lemma read_translate_write_order_witness :
  ∃ evs, Forall is_translate evs ∧
         trace cpu_run.2
         = trace (sample_world imdb_tsv)
           ++ [EvRead (data_dir (sample_args imdb_tsv None))] ++ evs
           ++ [EvWrite (output_path (sample_args imdb_tsv None))].
Proof.
  apply (read_translate_write_order echo_model [] (sample_args imdb_tsv None)
           (sample_world imdb_tsv) cpu_run.2).
  vm_compute. reflexivity.
Defined.

Lemma output_path_is_not_input_witness :
  Py.basename (output_path (sample_args train_tsv None))
  = lit "bt_" ++ Py.basename train_tsv ∧
  output_path (sample_args train_tsv None) ≠ train_tsv.
Proof. exact (output_path_is_not_input (sample_args train_tsv None)). Defined.

Lemma only_output_file_written_witness :
  files gpu_run.2 !! train_tsv = files (sample_world train_tsv) !! train_tsv.
Proof.
  exact (proj2 (only_output_file_written echo_model [1; 0]%nat
                  (sample_args train_tsv (Some [0; 1]))
                  (sample_world train_tsv))).
Defined.
